(** * band_check: band extraction and carrier comparison

    A shallow embedding of the pure core of the band checker:
    [parse_phone_bands] (the text scanner, in its two regex-based variants),
    [compare_phone_to_carrier] and [calculate_compatibility_score].
    Of the applications it covers the scanner of the terminal version and
    what the windows do to the history of analyses: [analyze_bands],
    [find_best_device_for_carrier], the ranking of [show_best_device],
    [delete_selected_entries] and the metrics and best performers of
    [format_comparison_report_for_display].  Widgets, message boxes and
    the history file are left out: the history is a list passed in and
    out, the clock and the user's answers are arguments.

    Python values are modelled as follows.
    - [str]: a list of characters; a character is an 8-bit code read as the
      code point U+0000..U+00FF, with the character classes the [re] module
      and [str.strip] give to those code points.
    - [int]: [Z].  [set] of int: [gset Z].  [dict] with string keys:
      [gmap string]; the order of a dict's keys is not modelled.
    - exceptions: the [result] type; [try ... except ValueError: pass] is
      [try_except_ValueError].
    - [re]: a backtracking matcher over a small pattern syntax, with the
      priority order of the [re] module (leftmost, greedy, alternatives left
      to right) and one capturing group, which is all the source's patterns
      use.
    - [int(s)]: with the interpreter's default limit of 4300 digits, above
      which [int] raises [ValueError] as it does for a malformed string. *)

From Stdlib Require Import ZArith Ascii String List Bool Lia.
From stdpp Require Import base option list sorting gmap strings fin_maps fin_sets.

Local Open Scope Z_scope.

(** ** Exceptions *)

Inductive exn : Set := ValueError | KeyError.

Inductive result (A : Type) : Type :=
| Ok (a : A)
| Raise (e : exn).
Arguments Ok {A} a.
Arguments Raise {A} e.

Definition rbind {A B} (m : result A) (f : A → result B) : result B :=
  match m with
  | Ok a => f a
  | Raise e => Raise e
  end.

Global Instance result_bind : MBind result := λ A B f m, rbind m f.

(** [try: body / except ValueError: handler]; any other exception passes. *)
Definition try_except_ValueError {A} (body handler : result A) : result A :=
  match body with
  | Raise ValueError => handler
  | r => r
  end.

(** [for a in l: s = body s a], stopping at the first exception. *)
Fixpoint for_each {A S : Type} (l : list A) (body : S → A → result S) (s : S)
  : result S :=
  match l with
  | [] => Ok s
  | a :: l' => s' ← body s a; for_each l' body s'
  end.

(** ** Characters *)

Definition str := list ascii.

Definition code (c : ascii) : N := N_of_ascii c.

Definition in_range (lo hi : N) (c : ascii) : bool :=
  ((lo <=? code c) && (code c <=? hi))%N.

Definition is_code (n : N) (c : ascii) : bool := (code c =? n)%N.

(** [\d]: the decimal digits. *)
Definition is_decimal (c : ascii) : bool := in_range 48 57 c.

(** [\s] and [str.isspace]. *)
Definition is_space (c : ascii) : bool :=
  in_range 9 13 c || in_range 28 32 c || is_code 133 c || is_code 160 c.

(** The white space that [int] skips around a numeral: that of
    [str.isspace] without the separators U+001C..U+001F. *)
Definition is_int_space (c : ascii) : bool :=
  in_range 9 13 c || is_code 32 c || is_code 133 c || is_code 160 c.

Definition is_ascii_upper (c : ascii) : bool := in_range 65 90 c.
Definition is_ascii_lower (c : ascii) : bool := in_range 97 122 c.
Definition is_ascii_alpha (c : ascii) : bool := is_ascii_upper c || is_ascii_lower c.

(** [\w]: alphanumeric (in the sense of [str.isalnum]) or underscore. *)
Definition is_word (c : ascii) : bool :=
  is_decimal c || is_ascii_alpha c || is_code 95 c
  || is_code 170 c || is_code 178 c || is_code 179 c || is_code 181 c
  || is_code 185 c || is_code 186 c || in_range 188 190 c
  || in_range 192 214 c || in_range 216 246 c || in_range 248 255 c.

(** Lower case of a code point below U+0100. *)
Definition py_lower (c : ascii) : ascii :=
  if is_ascii_upper c || (in_range 192 222 c && negb (is_code 215 c))
  then ascii_of_N (code c + 32)
  else c.

(** ** Patterns *)

Inductive regex : Type :=
| Eps                        (* the empty pattern *)
| Cls (p : ascii → bool)     (* one character of a class *)
| WordB                      (* \b *)
| Cat (r1 r2 : regex)        (* r1 r2 *)
| Alt (r1 r2 : regex)        (* r1|r2 *)
| Star (r : regex)           (* r*, greedy *)
| Group (r : regex).         (* (r), the capturing group *)

Definition Plus (r : regex) : regex := Cat r (Star r).   (* r+ *)
Definition Opt (r : regex) : regex := Alt r Eps.          (* r? *)

(** A literal character, and the same under [re.IGNORECASE]. *)
Definition Lit (c : ascii) : regex := Cls (Ascii.eqb c).
Definition LitI (c : ascii) : regex := Cls (λ x, Ascii.eqb (py_lower x) (py_lower c)).

(** A literal word under [re.IGNORECASE]. *)
Fixpoint WordI (s : string) : regex :=
  match s with
  | EmptyString => Eps
  | String c EmptyString => LitI c
  | String c s' => Cat (LitI c) (WordI s')
  end.

Fixpoint ngroups (r : regex) : nat :=
  match r with
  | Eps | Cls _ | WordB => 0%nat
  | Cat r1 r2 | Alt r1 r2 => (ngroups r1 + ngroups r2)%nat
  | Star r1 => ngroups r1
  | Group r1 => S (ngroups r1)
  end.

(** ** The matcher *)

(** A position in the subject: the character before it (for [\b]), the text
    from it on, and what the capturing group holds. *)
Record mstate : Type := MState {
  prev : option ascii;
  rest : str;
  grp : option str
}.

Definition word_before (st : mstate) : bool :=
  match prev st with Some c => is_word c | None => false end.

Definition word_after (st : mstate) : bool :=
  match rest st with c :: _ => is_word c | [] => false end.

Definition at_boundary (st : mstate) : bool := xorb (word_before st) (word_after st).

(** The text between two positions of one subject. *)
Definition consumed (st st' : mstate) : str :=
  take (length (rest st) - length (rest st')) (rest st).

Definition set_grp (w : str) (st : mstate) : mstate :=
  MState (prev st) (rest st) (Some w).

(** The greedy loop of [r*]: [body] matches one more [r]; at most [n] turns
    are taken, and a turn that consumes nothing is not repeated.  The
    starred sub-patterns of the source all consume a character, so for them
    the second condition never applies. *)
Fixpoint star_iter {A : Type}
    (body : (mstate → option A) → mstate → option A)
    (k : mstate → option A) (n : nat) (st : mstate) {struct n} : option A :=
  match n with
  | O => k st
  | S n' =>
      match body (λ st', if (length (rest st') <? length (rest st))%nat
                         then star_iter body k n' st' else None) st
      with
      | Some a => Some a
      | None => k st
      end
  end.

(** [rmatch r k st]: match [r] at [st] and hand the position reached to the
    continuation [k]; when [k] fails, the next alternative of [r] is tried. *)
Fixpoint rmatch {A : Type} (r : regex) (k : mstate → option A) (st : mstate)
  {struct r} : option A :=
  match r with
  | Eps => k st
  | Cls p =>
      match rest st with
      | c :: s => if p c then k (MState (Some c) s (grp st)) else None
      | [] => None
      end
  | WordB => if at_boundary st then k st else None
  | Cat r1 r2 => rmatch r1 (rmatch r2 k) st
  | Alt r1 r2 =>
      match rmatch r1 k st with
      | Some a => Some a
      | None => rmatch r2 k st
      end
  | Star r1 => star_iter (rmatch r1) k (length (rest st)) st
  | Group r1 => rmatch r1 (λ st', k (set_grp (consumed st st') st')) st
  end.

(** The match of [r] that starts exactly at [st], if any. *)
Definition match_at (r : regex) (st : mstate) : option mstate :=
  rmatch r Some (MState (prev st) (rest st) None).

(** One character forward. *)
Definition step (st : mstate) : option mstate :=
  match rest st with
  | c :: s => Some (MState (Some c) s None)
  | [] => None
  end.

(** The first match at or after a position: its start and its end. *)
Fixpoint search_from (r : regex) (p : option ascii) (s : str)
  : option (mstate * mstate) :=
  let st := MState p s None in
  match match_at r st with
  | Some st' => Some (st, st')
  | None =>
      match s with
      | [] => None
      | c :: s' => search_from r (Some c) s'
      end
  end.

(** [re.search(r, s)] as a truth value. *)
Definition re_search (r : regex) (s : str) : bool :=
  match search_from r None s with Some _ => true | None => false end.

(** The successive non-overlapping matches, left to right.  After a match
    the scan resumes where it ended (one character further when the match
    was empty; no pattern of the source matches the empty text).  [fuel]
    bounds the number of scan positions; one more than the length of the
    text is enough, see [finditer_enough_fuel]. *)
Fixpoint finditer (fuel : nat) (r : regex) (st : mstate) : list (mstate * mstate) :=
  match fuel with
  | O => []
  | S fuel' =>
      match search_from r (prev st) (rest st) with
      | None => []
      | Some (st0, st1) =>
          (st0, st1) ::
          (if (length (rest st1) <? length (rest st0))%nat
           then finditer fuel' r st1
           else match step st1 with
                | Some st2 => finditer fuel' r st2
                | None => []
                end)
      end
  end.

Definition matches (r : regex) (s : str) : list (mstate * mstate) :=
  finditer (S (length s)) r (MState None s None).

(** [re.findall(r, s)]: the group of each match when the pattern has one,
    the whole match when it has none. *)
Definition findall (r : regex) (s : str) : list str :=
  map (λ m : mstate * mstate,
         if (ngroups r =? 0)%nat then consumed (fst m) (snd m)
         else default [] (grp (snd m)))
      (matches r s).

(** [re.sub(r, '', s)]: the text outside the matches. *)
Fixpoint remove_matches (s : str) (ms : list (mstate * mstate)) : str :=
  match ms with
  | [] => s
  | (st0, st1) :: ms' =>
      take (length s - length (rest st0)) s
      ++ remove_matches (rest st1) ms'
  end.

Definition re_sub_empty (r : regex) (s : str) : str :=
  remove_matches s (matches r s).

(** ** Strings and integers *)

(** [s.split(sep)] for a one-character separator. *)
Fixpoint split_on (sep : ascii) (s : str) : list str :=
  match s with
  | [] => [[]]
  | c :: s' =>
      if Ascii.eqb c sep then [] :: split_on sep s'
      else match split_on sep s' with
           | l :: ls => (c :: l) :: ls
           | [] => [[c]]
           end
  end.

Fixpoint lstrip (s : str) : str :=
  match s with
  | c :: s' => if is_space c then lstrip s' else s
  | [] => []
  end.

Definition rstrip (s : str) : str := rev (lstrip (rev s)).

(** [s.strip()] *)
Definition strip (s : str) : str := rstrip (lstrip s).

Definition digit_value (c : ascii) : Z := Z.of_N (code c) - 48.

(** The value of a run of digits in which single underscores may separate
    digits; [acc] is the value read so far (at least one digit was read). *)
Fixpoint digits_from (acc : Z) (s : str) : option Z :=
  match s with
  | [] => Some acc
  | c :: s' =>
      if is_decimal c then digits_from (10 * acc + digit_value c) s'
      else if is_code 95 c then
        match s' with
        | d :: s'' =>
            if is_decimal d then digits_from (10 * acc + digit_value d) s''
            else None
        | [] => None
        end
      else None
  end.

Definition digits (s : str) : option Z :=
  match s with
  | c :: s' => if is_decimal c then digits_from (digit_value c) s' else None
  | [] => None
  end.

(** The white space around a numeral, as [int] skips it. *)
Fixpoint int_lstrip (s : str) : str :=
  match s with
  | c :: s' => if is_int_space c then int_lstrip s' else s
  | [] => []
  end.

Definition int_strip (s : str) : str := rev (int_lstrip (rev (int_lstrip s))).

(** The number of digits of a numeral; underscores do not count. *)
Fixpoint digit_count (s : str) : Z :=
  match s with
  | [] => 0
  | c :: s' => (if is_decimal c then 1 else 0) + digit_count s'
  end.

(** [sys.int_info.default_max_str_digits] *)
Definition int_max_str_digits : Z := 4300.

(** [int(s)] for a string: surrounding white space, an optional sign, then
    decimal digits, at most [int_max_str_digits] of them; [ValueError]
    otherwise. *)
Definition py_int (s : str) : result Z :=
  let s := int_strip s in
  let '(neg, body) :=
    match s with
    | c :: s' =>
        if is_code 45 c then (true, s')
        else if is_code 43 c then (false, s')
        else (false, s)
    | [] => (false, s)
    end in
  match digits body with
  | Some v =>
      if int_max_str_digits <? digit_count body then Raise ValueError
      else Ok (if neg then - v else v)
  | None => Raise ValueError
  end.

(** [sorted(list(s))] for a set of integers. *)
Definition sorted (s : gset Z) : list Z := merge_sort Z.le (elements s).

(** ** The patterns of the source *)

Definition Cats (rs : list regex) : regex := foldr Cat Eps rs.

Definition digit : regex := Cls is_decimal.

(** A bracketed class listing characters, and its form under
    [re.IGNORECASE] (the subject character is compared in lower case with
    the listed characters in lower case). *)
Definition one_of (cs : string) (x : ascii) : bool :=
  existsb (Ascii.eqb x) (list_ascii_of_string cs).

Definition one_of_i (cs : string) (x : ascii) : bool :=
  existsb (λ c, Ascii.eqb (py_lower x) (py_lower c)) (list_ascii_of_string cs).

(** [[a-zA-Z]] under [re.IGNORECASE]. *)
Definition alpha_i (x : ascii) : bool := is_ascii_alpha (py_lower x).

(** The pattern "\b(4G|LTE|TD-LTE|FDD)\b", ignoring case. *)
Definition re_lte_keyword : regex :=
  Cats [WordB;
        Group (Alt (WordI "4G") (Alt (WordI "LTE") (Alt (WordI "TD-LTE") (WordI "FDD"))));
        WordB].

(** The pattern "\bB\d+", ignoring case. *)
Definition re_b_digits : regex := Cats [WordB; LitI "B"; Plus digit].

(** The pattern "\s*\([^)]*\)". *)
Definition re_parenthesized : regex :=
  Cats [Star (Cls is_space); Lit "("; Star (Cls (λ c, negb (one_of ")" c))); Lit ")"].

(** The pattern "\bB?(\d+)(?:[abAB])?\b", ignoring case. *)
Definition re_lte_part : regex :=
  Cats [WordB; Opt (LitI "B"); Group (Plus digit); Opt (Cls (one_of_i "abAB")); WordB].

(** The pattern "n(\d+(?:[/\s,]\d+)*)", ignoring case. *)
Definition re_nr_chain : regex :=
  Cats [LitI "n";
        Group (Cat (Plus digit)
                   (Star (Cat (Cls (λ c, one_of "/" c || is_space c || one_of "," c))
                              (Plus digit))))].

(** The pattern "\d+". *)
Definition re_digits : regex := Plus digit.

(** The pattern "n(\d+)(?:[a-zA-Z])?", ignoring case. *)
Definition re_nr_single : regex :=
  Cats [LitI "n"; Group (Plus digit); Opt (Cls alpha_i)].

(** ** parse_phone_bands *)

(** The body of the innermost 5G loop:
    [try: nr_bands.add(int(band_str)) / except ValueError: pass]. *)
Definition add_nr_band (nr_bands : gset Z) (band_str : str) : result (gset Z) :=
  try_except_ValueError
    (band_num ← py_int band_str; Ok (nr_bands ∪ {[band_num]}))
    (Ok nr_bands).

(** The body of the innermost LTE loop: the band is kept when it lies
    between 1 and 100. *)
Definition add_lte_band (lte_bands : gset Z) (part : str) : result (gset Z) :=
  try_except_ValueError
    (band_num ← py_int part;
     if (1 <=? band_num) && (band_num <=? 100)
     then Ok (lte_bands ∪ {[band_num]})
     else Ok lte_bands)
    (Ok lte_bands).

(** One turn of [for line in lines]. *)
Definition scan_lte_line (lte_bands : gset Z) (line : str) : result (gset Z) :=
  let line_stripped := strip line in
  if re_search re_lte_keyword line_stripped || re_search re_b_digits line_stripped
  then
    let clean_line := re_sub_empty re_parenthesized line_stripped in
    let potential_lte_parts := findall re_lte_part clean_line in
    for_each potential_lte_parts add_lte_band lte_bands
  else Ok lte_bands.

(** The 4G/LTE part, shared by both variants. *)
Definition scan_lte (text : str) : result (gset Z) :=
  let lines := split_on "010"%char text in
  for_each lines scan_lte_line ∅.

Module Perplexity.

(** [parse_phone_bands] of band_check_perplexity.py *)
Definition parse_phone_bands (text : string) : result (list Z * list Z) :=
  let text := list_ascii_of_string text in
  let nr_matches := findall re_nr_chain text in
  nr_bands ←
    for_each nr_matches
      (λ nr_bands match_group,
         let individual_bands := findall re_digits match_group in
         for_each individual_bands add_nr_band nr_bands)
      ∅;
  lte_bands ← scan_lte text;
  Ok (sorted lte_bands, sorted nr_bands).

End Perplexity.

Module GuiExpanded.

(** [parse_phone_bands] of GUI expanded/band_check.py *)
Definition parse_phone_bands (text : string) : result (list Z * list Z) :=
  let text := list_ascii_of_string text in
  let nr_matches := findall re_nr_single text in
  nr_bands ← for_each nr_matches add_nr_band ∅;
  lte_bands ← scan_lte text;
  Ok (sorted lte_bands, sorted nr_bands).

End GuiExpanded.

(** ** The section-gated scanner of the terminal version *)

(** [p in s] for two strings. *)
Fixpoint starts_with (p s : str) : bool :=
  match p, s with
  | [], _ => true
  | a :: p', b :: s' => Ascii.eqb a b && starts_with p' s'
  | _ :: _, [] => false
  end.

Fixpoint contains (p s : str) : bool :=
  starts_with p s
  || match s with
     | [] => false
     | _ :: s' => contains p s'
     end.

(** [s.lower()] *)
Definition lower (s : str) : str := map py_lower s.

Module Terminal.

(** The values of [current_section] other than [None]. *)
Inductive section : Set := Section5G | Section4G.

(** The pattern "n(\d+)", ignoring case. *)
Definition re_n_digits : regex := Cats [LitI "n"; Group (Plus digit)].

(** The pattern "[Bb](\d+)(?:\s*\([^)]*\))?", ignoring case. *)
Definition re_b_annotated : regex :=
  Cats [Cls (one_of_i "Bb"); Group (Plus digit);
        Opt (Cats [Star (Cls is_space); Lit "(";
                   Star (Cls (λ c, negb (one_of ")" c))); Lit ")"])].

(** [try: bands.add(int(band_str)) / except ValueError: pass] *)
Definition add_band (bands : gset Z) (band_str : str) : result (gset Z) :=
  try_except_ValueError
    (band_num ← py_int band_str; Ok (bands ∪ {[band_num]}))
    (Ok bands).

(** What the loop over the lines carries: [current_section], [lte_bands]
    and [nr_bands]. *)
Record scan_state : Type := ScanState {
  current_section : option section;
  lte_bands : gset Z;
  nr_bands : gset Z
}.

(** One turn of [for line in lines]. *)
Definition scan_line (st : scan_state) (line : str) : result scan_state :=
  let line_stripped_lower := lower (strip line) in
  if contains (list_ascii_of_string "5g") line_stripped_lower
     && negb (contains (list_ascii_of_string "4g") line_stripped_lower)
  then Ok (ScanState (Some Section5G) (lte_bands st) (nr_bands st))
  else if contains (list_ascii_of_string "4g") line_stripped_lower
          && negb (contains (list_ascii_of_string "5g") line_stripped_lower)
  then Ok (ScanState (Some Section4G) (lte_bands st) (nr_bands st))
  else
    match current_section st with
    | Some Section5G =>
        let nr_matches := findall re_n_digits line in
        nr ← for_each nr_matches add_band (nr_bands st);
        Ok (ScanState (current_section st) (lte_bands st) nr)
    | Some Section4G =>
        let lte_matches := findall re_b_annotated line in
        lte ← for_each lte_matches add_band (lte_bands st);
        Ok (ScanState (current_section st) lte (nr_bands st))
    | None => Ok st
    end.

(** [parse_phone_bands] of Terminal version/band_check.py *)
Definition parse_phone_bands (text : string) : result (list Z * list Z) :=
  let lines := split_on "010"%char (list_ascii_of_string text) in
  st ← for_each lines scan_line (ScanState None ∅ ∅);
  Ok (sorted (lte_bands st), sorted (nr_bands st)).

End Terminal.

(** ** compare_phone_to_carrier *)

(** A carrier's requirement sets. *)
Record CarrierProfile : Type := {
  lteBands : gset Z;
  coreLteBands : gset Z;
  nrBands : gset Z
}.

(** The entry the carrier table holds for a profile: a dict with the keys
    '4G/LTE', 'Core LTE' and '5G'. *)
Definition bands_info_of (c : CarrierProfile) : gmap string (gset Z) :=
  <["4G/LTE" := lteBands c]>
    (<["Core LTE" := coreLteBands c]> (<["5G" := nrBands c]> ∅)).

(** [d[key]] *)
Definition getitem {V} (d : gmap string V) (key : string) : result V :=
  match d !! key with
  | Some v => Ok v
  | None => Raise KeyError
  end.

(** The per-carrier entry of the result, with the keys of the source. *)
Record CarrierReport : Type := {
  supported_lte : list Z;
  supported_nr : list Z;
  missing_lte : list Z;
  missing_nr : list Z;
  missing_core_lte : list Z
}.

(** One turn of [for carrier_name, bands_info in carrier_data.items()]. *)
Definition compare_carrier (phone_lte_bands phone_nr_bands : gset Z)
    (results : gmap string CarrierReport)
    (item : string * gmap string (gset Z)) : result (gmap string CarrierReport) :=
  let carrier_name := item.1 in
  let bands_info := item.2 in
  carrier_lte ← getitem bands_info "4G/LTE";
  carrier_nr ← getitem bands_info "5G";
  carrier_core_lte ← getitem bands_info "Core LTE";
  let supported_lte := phone_lte_bands ∩ carrier_lte in
  let supported_nr := phone_nr_bands ∩ carrier_nr in
  let missing_lte := carrier_lte ∖ phone_lte_bands in
  let missing_nr := carrier_nr ∖ phone_nr_bands in
  let missing_core_lte := carrier_core_lte ∩ missing_lte in
  Ok (<[carrier_name :=
          {| supported_lte := sorted supported_lte;
             supported_nr := sorted supported_nr;
             missing_lte := sorted missing_lte;
             missing_nr := sorted missing_nr;
             missing_core_lte := sorted missing_core_lte |}]> results).

Definition compare_phone_to_carrier (phone_lte_bands phone_nr_bands : gset Z)
    (carrier_data : gmap string (gmap string (gset Z)))
  : result (gmap string CarrierReport) :=
  for_each (map_to_list carrier_data)
           (compare_carrier phone_lte_bands phone_nr_bands) ∅.

(** ** calculate_compatibility_score *)

(** The source multiplies the three list lengths by the float constants
    2.0, 1.0 and 2.0.  Every intermediate value is an integer, and integers
    of this size are exact in binary64, so the score is computed in [Z]. *)
Definition calculate_compatibility_score (carrier_results : CarrierReport) : Z :=
  let score := 0 in
  let score := score + Z.of_nat (length (supported_lte carrier_results)) * 2 in
  let score := score + Z.of_nat (length (supported_nr carrier_results)) * 1 in
  let score := score - Z.of_nat (length (missing_core_lte carrier_results)) * 2 in
  Z.max 0 score.

(** ** The carrier table of the source *)

Definition set_of (l : list Z) : gset Z := list_to_set l.

Definition verizon : CarrierProfile :=
  {| lteBands := set_of [2; 4; 5; 13; 41; 46; 48; 66; 71];
     coreLteBands := set_of [2; 4; 13; 66];
     nrBands := set_of [2; 5; 66; 77; 260; 261] |}.

Definition att : CarrierProfile :=
  {| lteBands := set_of [2; 4; 5; 12; 14; 17; 29; 30; 66; 71];
     coreLteBands := set_of [2; 4; 12; 17; 29];
     nrBands := set_of [2; 5; 66; 77; 260] |}.

Definition tmobile : CarrierProfile :=
  {| lteBands := set_of [2; 4; 5; 12; 25; 41; 66; 71];
     coreLteBands := set_of [2; 4; 12; 71];
     nrBands := set_of [2; 25; 38; 41; 71; 258; 260; 261] |}.

Definition us_carriers : gmap string CarrierProfile :=
  <["Verizon" := verizon]> (<["AT&T" := att]> (<["T-Mobile" := tmobile]> ∅)).

(** ** The history of analyses *)

(** The carrier table as the applications hold it: under each carrier's
    name a dict with the keys '4G/LTE', 'Core LTE' and '5G'. *)
Definition get_us_carriers : gmap string (gmap string (gset Z)) :=
  bands_info_of <$> us_carriers.

(** An entry of [comparison_history]; the time stamp is a number of
    seconds. *)
Record LogEntry : Type := {
  model : str;
  timestamp : Z;
  phone_lte : list Z;
  phone_5g : list Z;
  results : gmap string CarrierReport
}.

(** What [analyze_bands] shows to the user. *)
Inductive outcome : Type :=
| InputError
| DuplicateEntry (comparison_results : gmap string CarrierReport)
| NoBandsFound
| Logged (log_entry_data : LogEntry).

(** Two reports, and two entries, are equal when all their fields are. *)
Global Instance CarrierReport_eq_dec : EqDecision CarrierReport.
Proof. solve_decision. Defined.

Global Instance LogEntry_eq_dec : EqDecision LogEntry.
Proof. solve_decision. Defined.

(** [l.remove(x)]: without the first element equal to [x] (the source
    calls it only when [x in l]). *)
Fixpoint remove_first (x : LogEntry) (l : list LogEntry) : list LogEntry :=
  match l with
  | [] => []
  | y :: l' => if decide (x = y) then l' else y :: remove_first x l'
  end.

(** [entry['model'] == phone_model and entry['phone_lte'] == ... and
    entry['phone_5g'] == ...] *)
Definition same_phone (phone_model : str) (lte_list nr_list : list Z)
    (entry : LogEntry) : bool :=
  bool_decide (model entry = phone_model)
  && bool_decide (phone_lte entry = lte_list)
  && bool_decide (phone_5g entry = nr_list).

(** [analyze_bands] of both applications, over the scanner [parse] of the
    application: the history comes in and goes out, the texts of the two
    input fields and the time of the call are arguments. *)
Definition analyze_bands_with (parse : string → result (list Z * list Z))
    (comparison_history : list LogEntry) (input_text model_input : string)
    (now : Z) : result (list LogEntry * outcome) :=
  let phone_info_text := strip (list_ascii_of_string input_text) in
  let phone_model := strip (list_ascii_of_string model_input) in
  let phone_model :=
    match phone_model with
    | [] => list_ascii_of_string "Unknown Model"
    | _ => phone_model
    end in
  match phone_info_text with
  | [] => Ok (comparison_history, InputError)
  | _ =>
      bands ← parse (string_of_list_ascii phone_info_text);
      let phone_lte_bands_list := bands.1 in
      let phone_nr_bands_list := bands.2 in
      let is_duplicate :=
        existsb (same_phone phone_model phone_lte_bands_list phone_nr_bands_list)
                comparison_history in
      if is_duplicate then
        comparison_results ←
          compare_phone_to_carrier (set_of phone_lte_bands_list)
            (set_of phone_nr_bands_list) get_us_carriers;
        Ok (comparison_history, DuplicateEntry comparison_results)
      else
        let phone_lte_bands := set_of phone_lte_bands_list in
        let phone_nr_bands := set_of phone_nr_bands_list in
        if bool_decide (phone_lte_bands = ∅) && bool_decide (phone_nr_bands = ∅)
        then Ok (comparison_history, NoBandsFound)
        else
          comparison_results ←
            compare_phone_to_carrier phone_lte_bands phone_nr_bands get_us_carriers;
          let log_entry_data :=
            {| model := phone_model;
               timestamp := now;
               phone_lte := phone_lte_bands_list;
               phone_5g := phone_nr_bands_list;
               results := comparison_results |} in
          Ok (comparison_history ++ [log_entry_data], Logged log_entry_data)
  end.

(** [list.sort(key=lambda x: x[1], reverse=True)]: by falling score, and
    in the order of the list among equal scores. *)
Fixpoint insert_by_score {A : Type} (x : A * Z) (l : list (A * Z)) : list (A * Z) :=
  match l with
  | [] => [x]
  | y :: l' => if x.2 <? y.2 then y :: insert_by_score x l' else x :: l
  end.

Definition sort_by_score {A : Type} (l : list (A * Z)) : list (A * Z) :=
  foldr insert_by_score [] l.

Module PerplexityApp.

(** [analyze_bands] of band_check_perplexity.py *)
Definition analyze_bands := analyze_bands_with Perplexity.parse_phone_bands.

(** One turn of the loop of [find_best_device_for_carrier]; the state is
    [(best_score, best_device)]. *)
Definition keep_best (carrier : string) (best : Z * option LogEntry)
    (entry : LogEntry) : Z * option LogEntry :=
  match results entry !! carrier with
  | Some carrier_results =>
      let score := calculate_compatibility_score carrier_results in
      if best.1 <? score then (score, Some entry) else best
  | None => best
  end.

(** [find_best_device_for_carrier]; the source does not use its argument
    [all_carriers]. *)
Definition find_best_device_for_carrier (comparison_history : list LogEntry)
    (carrier : string) (all_carriers : gmap string (gmap string (gset Z)))
  : option LogEntry :=
  (fold_left (keep_best carrier) comparison_history (-1, None)).2.

(** The ranking at the end of [show_best_device]: the model and the score
    of every entry that has results for the carrier, by falling score, the
    first five. *)
Definition best_device_ranking (comparison_history : list LogEntry)
    (selected_carrier : string) : list (str * Z) :=
  let all_scores :=
    omap (λ entry,
            carrier_results ← results entry !! selected_carrier;
            Some (model entry, calculate_compatibility_score carrier_results))
         comparison_history in
  take 5 (sort_by_score all_scores).

(** [delete_selected_entries] on the history: [selected] holds the
    [comparison_data] of the selected items, [confirmed] is the answer
    to the question the user is asked. *)
Definition delete_selected_entries (comparison_history selected : list LogEntry)
    (confirmed : bool) : list LogEntry :=
  match selected with
  | [] => comparison_history
  | _ =>
      if confirmed then
        fold_left (λ history data,
                     if bool_decide (data ∈ history)
                     then remove_first data history
                     else history)
                  selected comparison_history
      else comparison_history
  end.

End PerplexityApp.

Module GuiExpandedApp.

(** [analyze_bands] of GUI expanded/band_check.py *)
Definition analyze_bands := analyze_bands_with GuiExpanded.parse_phone_bands.

(** The metrics that [format_comparison_report_for_display] computes
    for one phone of the history. *)
Record PhoneMetrics : Type := {
  metrics_model : str;
  detected_lte_count : Z;
  detected_nr_count : Z;
  overall_supported_lte_count : Z;
  overall_supported_nr_count : Z;
  total_critical_missing_lte_bands : Z;
  overall_supported_lte : list Z;
  overall_supported_nr : list Z
}.

(** One turn of [for carrier, data in comparison_results.items()]; the
    state is [(overall_supported_lte_bands, overall_supported_nr_bands,
    total_critical_missing_lte_bands)]. *)
Definition add_carrier (acc : gset Z * gset Z * Z) (item : string * CarrierReport)
  : gset Z * gset Z * Z :=
  let data := item.2 in
  (acc.1.1 ∪ set_of (supported_lte data),
   acc.1.2 ∪ set_of (supported_nr data),
   acc.2 + Z.of_nat (length (missing_core_lte data))).

Definition phone_metrics (phone_data : LogEntry) : PhoneMetrics :=
  let detected_lte := set_of (phone_lte phone_data) in
  let detected_nr := set_of (phone_5g phone_data) in
  let comparison_results := results phone_data in
  let overall :=
    fold_left add_carrier (map_to_list comparison_results) (∅, ∅, 0) in
  {| metrics_model := model phone_data;
     detected_lte_count := Z.of_nat (size detected_lte);
     detected_nr_count := Z.of_nat (size detected_nr);
     overall_supported_lte_count := Z.of_nat (size overall.1.1);
     overall_supported_nr_count := Z.of_nat (size overall.1.2);
     total_critical_missing_lte_bands := overall.2;
     overall_supported_lte := sorted overall.1.1;
     overall_supported_nr := sorted overall.1.2 |}.

(** A string as a condition: the empty string counts as false. *)
Definition truthy (s : option str) : bool :=
  match s with
  | Some (_ :: _) => true
  | _ => false
  end.

(** [name += f", {model}"] *)
Definition append_model (name : option str) (m : str) : option str :=
  (λ s, s ++ list_ascii_of_string ", " ++ m) <$> name.

(** The best performers among the selected phones; [min_critical_bands]
    starts as infinity, which is [None] here. *)
Record Best : Type := {
  best_lte_phone : option str;
  max_lte_bands : Z;
  best_nr_phone : option str;
  max_nr_bands : Z;
  best_core_lte_phone : option str;
  min_critical_bands : option Z
}.

(** One turn of [for phone in comparison_metrics]. *)
Definition pick_best (b : Best) (phone : PhoneMetrics) : Best :=
  let '(best_lte_phone, max_lte_bands) :=
    if max_lte_bands b <? overall_supported_lte_count phone
    then (Some (metrics_model phone), overall_supported_lte_count phone)
    else if (overall_supported_lte_count phone =? max_lte_bands b)
            && truthy (best_lte_phone b)
    then (append_model (best_lte_phone b) (metrics_model phone), max_lte_bands b)
    else (best_lte_phone b, max_lte_bands b) in
  let '(best_nr_phone, max_nr_bands) :=
    if max_nr_bands b <? overall_supported_nr_count phone
    then (Some (metrics_model phone), overall_supported_nr_count phone)
    else if (overall_supported_nr_count phone =? max_nr_bands b)
            && truthy (best_nr_phone b)
    then (append_model (best_nr_phone b) (metrics_model phone), max_nr_bands b)
    else (best_nr_phone b, max_nr_bands b) in
  let below_min :=
    match min_critical_bands b with
    | None => true
    | Some m => total_critical_missing_lte_bands phone <? m
    end in
  let equals_min :=
    match min_critical_bands b with
    | None => false
    | Some m => total_critical_missing_lte_bands phone =? m
    end in
  let '(best_core_lte_phone, min_critical_bands) :=
    if below_min
    then (Some (metrics_model phone),
          Some (total_critical_missing_lte_bands phone))
    else if equals_min && truthy (best_core_lte_phone b)
    then (append_model (best_core_lte_phone b) (metrics_model phone),
          min_critical_bands b)
    else (best_core_lte_phone b, min_critical_bands b) in
  {| best_lte_phone := best_lte_phone;
     max_lte_bands := max_lte_bands;
     best_nr_phone := best_nr_phone;
     max_nr_bands := max_nr_bands;
     best_core_lte_phone := best_core_lte_phone;
     min_critical_bands := min_critical_bands |}.

(** The best performers that [format_comparison_report_for_display]
    names for the phones [phones_data_list]. *)
Definition best_performers (phones_data_list : list LogEntry) : Best :=
  let comparison_metrics := phone_metrics <$> phones_data_list in
  fold_left pick_best comparison_metrics
    {| best_lte_phone := None; max_lte_bands := -1;
       best_nr_phone := None; max_nr_bands := -1;
       best_core_lte_phone := None; min_critical_bands := None |}.

End GuiExpandedApp.

(** * Vocabulary of the properties *)

(** [l] lists the members of [s] in strictly increasing order. *)
Definition ascending_seq_of (l : list Z) (s : gset Z) : Prop :=
  StronglySorted Z.lt l ∧ ∀ x, x ∈ l ↔ x ∈ s.

(** The profile an entry of the carrier table stands for, when it has the
    three keys. *)
Definition profile_of (bands_info : gmap string (gset Z)) : option CarrierProfile :=
  l ← bands_info !! "4G/LTE";
  n ← bands_info !! "5G";
  c ← bands_info !! "Core LTE";
  Some {| lteBands := l; coreLteBands := c; nrBands := n |}.

(** The report of one carrier, as a function of its profile. *)
Definition report_of (phone_lte_bands phone_nr_bands : gset Z) (c : CarrierProfile)
  : CarrierReport :=
  {| supported_lte := sorted (phone_lte_bands ∩ lteBands c);
     supported_nr := sorted (phone_nr_bands ∩ nrBands c);
     missing_lte := sorted (lteBands c ∖ phone_lte_bands);
     missing_nr := sorted (nrBands c ∖ phone_nr_bands);
     missing_core_lte := sorted (coreLteBands c ∩ (lteBands c ∖ phone_lte_bands)) |}.

(** Every character class of the pattern lies within [Q]. *)
Fixpoint only_chars (Q : ascii → Prop) (r : regex) : Prop :=
  match r with
  | Eps | WordB => True
  | Cls p => ∀ c, p c = true → Q c
  | Cat r1 r2 | Alt r1 r2 => only_chars Q r1 ∧ only_chars Q r2
  | Star r1 | Group r1 => only_chars Q r1
  end.

(** Every capturing group of the pattern captures characters of [Q] only. *)
Fixpoint groups_only (Q : ascii → Prop) (r : regex) : Prop :=
  match r with
  | Eps | WordB | Cls _ => True
  | Cat r1 r2 | Alt r1 r2 => groups_only Q r1 ∧ groups_only Q r2
  | Star r1 => groups_only Q r1
  | Group r1 => only_chars Q r1
  end.

Definition grp_in (Q : ascii → Prop) (st : mstate) : Prop :=
  ∀ w, grp st = Some w → Forall Q w.

(** [body] hands its continuation a position further in the same text,
    having consumed characters of [Q]. *)
Definition consumes {A : Type} (Q : ascii → Prop)
    (body : (mstate → option A) → mstate → option A) : Prop :=
  ∀ k st a, body k st = Some a →
    ∃ st' w, k st' = Some a ∧ rest st = w ++ rest st' ∧ Forall Q w.

(** [body] keeps what the group holds within [Q]. *)
Definition keeps_group {A : Type} (Q : ascii → Prop)
    (body : (mstate → option A) → mstate → option A) : Prop :=
  ∀ k st a, grp_in Q st → body k st = Some a →
    ∃ st', k st' = Some a ∧ grp_in Q st'.

(** A decimal digit. *)
Definition decimal (c : ascii) : Prop := is_decimal c = true.

(** Bounds on the members of a set of bands. *)
Definition bands_within (lo hi : Z) (s : gset Z) : Prop := ∀ x, x ∈ s → lo ≤ x ≤ hi.
Definition bands_from (lo : Z) (s : gset Z) : Prop := ∀ x, x ∈ s → lo ≤ x.

(** Every match of the pattern consumes a character of [Q]. *)
Fixpoint requires (Q : ascii → Prop) (r : regex) : Prop :=
  match r with
  | Eps | WordB | Star _ => False
  | Cls p => ∀ c, p c = true → Q c
  | Cat r1 r2 => requires Q r1 ∨ requires Q r2
  | Alt r1 r2 => requires Q r1 ∧ requires Q r2
  | Group r1 => requires Q r1
  end.

(** No character of the text is a decimal digit. *)
Definition digit_free (s : str) : Prop := Forall (λ c, ¬ decimal c) s.

(** The score of a history entry for a carrier, when the entry has results
    for it. *)
Definition carrier_score (carrier : string) (entry : LogEntry) : option Z :=
  calculate_compatibility_score <$> results entry !! carrier.

(** [x] is the first element of [l] with the greatest score: [l] is [l1],
    [x], [l2] with smaller scores in [l1] and no greater score in [l2]. *)
Definition first_greatest {A : Type} (score : A → option Z) (l l1 : list A) (x : A)
    (l2 : list A) : Prop :=
  l = l1 ++ x :: l2
  ∧ ∃ sx, score x = Some sx
          ∧ Forall (λ y, ∀ sy, score y = Some sy → sy < sx) l1
          ∧ Forall (λ y, ∀ sy, score y = Some sy → sy ≤ sx) l2.

(** What identifies a phone in the history: its model and its two band
    lists. *)
Definition phone_key (entry : LogEntry) : str * list Z * list Z :=
  (model entry, phone_lte entry, phone_5g entry).

(** Sample entries of a history: three phones compared with the carrier
    table. *)
Definition sample_entry (name : string) (time : Z) (lte nr : list Z) : LogEntry :=
  {| model := list_ascii_of_string name;
     timestamp := time;
     phone_lte := lte;
     phone_5g := nr;
     results := report_of (set_of lte) (set_of nr) <$> us_carriers |}.

Definition sample_phone_a : LogEntry := sample_entry "Phone A" 100 [2; 4] [].
Definition sample_phone_b : LogEntry := sample_entry "Phone B" 200 [2; 4; 13; 66] [77].
Definition sample_phone_c : LogEntry := sample_entry "Phone C" 300 [2; 4; 13; 66] [78].

Definition sample_history : list LogEntry :=
  [sample_phone_a; sample_phone_b; sample_phone_c].

(** The model name [analyze_bands] files an analysis under: the text of the
    model field without surrounding white space, or "Unknown Model". *)
Definition effective_model (model_input : string) : str :=
  match strip (list_ascii_of_string model_input) with
  | [] => list_ascii_of_string "Unknown Model"
  | _ => strip (list_ascii_of_string model_input)
  end.

(** [e] is the entry that an analysis of [input_text] at the time [now]
    adds to the history [h], with the scanner [parse]. *)
Definition new_entry (parse : string → result (list Z * list Z))
    (h : list LogEntry) (input_text model_input : string) (now : Z)
    (e : LogEntry) : Prop :=
  model e = effective_model model_input
  ∧ model e ≠ []
  ∧ timestamp e = now
  ∧ parse (string_of_list_ascii (strip (list_ascii_of_string input_text)))
    = Ok (phone_lte e, phone_5g e)
  ∧ (phone_lte e ≠ [] ∨ phone_5g e ≠ [])
  ∧ Forall (λ e', phone_key e' ≠ phone_key e) h
  ∧ compare_phone_to_carrier (set_of (phone_lte e)) (set_of (phone_5g e))
      get_us_carriers = Ok (results e)
  ∧ dom (results e) = dom us_carriers.

(** A position of the matcher in a text whose characters are mapped. *)
Definition map_state (f : ascii → ascii) (st : mstate) : mstate :=
  MState (f <$> prev st) (map f (rest st)) (map f <$> grp st).

(** No character class of the pattern tells [c] from [f c]. *)
Fixpoint respects (f : ascii → ascii) (r : regex) : Prop :=
  match r with
  | Eps | WordB => True
  | Cls p => ∀ c, p (f c) = p c
  | Cat r1 r2 | Alt r1 r2 => respects f r1 ∧ respects f r2
  | Star r1 | Group r1 => respects f r1
  end.

(** [text.lower()] for a text whose characters all lie below U+0100.  On
    such a text [str.lower] works character by character and stays below
    U+0100; on other texts it does not (U+0130 becomes two characters), and
    they are outside this definition. *)
Definition lower_text (text : string) : string :=
  string_of_list_ascii (lower (list_ascii_of_string text)).

(** [body] adds to the set a set that depends on the element alone. *)
Definition adds_only {A : Type} (body : gset Z → A → result (gset Z)) : Prop :=
  ∀ a, ∃ d, ∀ s, body s a = Ok (s ∪ d).

(** What the loop of [find_best_device_for_carrier] holds after the
    entries [h]. *)
Definition best_so_far (carrier : string) (h : list LogEntry)
    (best : Z * option LogEntry) : Prop :=
  match best.2 with
  | None => best.1 = -1 ∧ Forall (λ e, carrier_score carrier e = None) h
  | Some e =>
      ∃ h1 h2, first_greatest (carrier_score carrier) h h1 e h2
               ∧ carrier_score carrier e = Some best.1
  end.

(** [body] does on the text mapped by [f] what it does on the text. *)
Definition commutes {A B : Type} (f : ascii → ascii) (g : A → B)
    (body : ∀ C, (mstate → option C) → mstate → option C) : Prop :=
  ∀ (k : mstate → option A) (k' : mstate → option B) st,
    (∀ st', k' (map_state f st') = g <$> k st') →
    body B k' (map_state f st) = g <$> body A k st.

(** [", ".join(names)] *)
Fixpoint join_models (names : list str) : str :=
  match names with
  | [] => []
  | [name] => name
  | name :: names' => name ++ list_ascii_of_string ", " ++ join_models names'
  end.

(** The models of the phones whose metric [key] is [v], in the order of
    the phones. *)
Definition models_with (key : GuiExpandedApp.PhoneMetrics → Z) (v : Z)
    (ms : list GuiExpandedApp.PhoneMetrics) : list str :=
  GuiExpandedApp.metrics_model <$> filter (λ m, key m = v) ms.

(** [v] is the greatest, the least, value of the metric [key] among the
    phones [ms]. *)
Definition greatest_of (key : GuiExpandedApp.PhoneMetrics → Z) (v : Z)
    (ms : list GuiExpandedApp.PhoneMetrics) : Prop :=
  (∃ m, m ∈ ms ∧ key m = v) ∧ Forall (λ m, key m ≤ v) ms.

Definition least_of (key : GuiExpandedApp.PhoneMetrics → Z) (v : Z)
    (ms : list GuiExpandedApp.PhoneMetrics) : Prop :=
  (∃ m, m ∈ ms ∧ key m = v) ∧ Forall (λ m, v ≤ key m) ms.

(** What one turn of the loop of [best_performers] does to the name and
    the bound of one metric: of a metric whose greatest value is sought,
    and of the one whose least value is sought. *)
Definition max_turn (key : GuiExpandedApp.PhoneMetrics → Z)
    (st : option str * Z) (m : GuiExpandedApp.PhoneMetrics) : option str * Z :=
  if st.2 <? key m then (Some (GuiExpandedApp.metrics_model m), key m)
  else if (key m =? st.2) && GuiExpandedApp.truthy st.1
  then (GuiExpandedApp.append_model st.1 (GuiExpandedApp.metrics_model m), st.2)
  else st.

Definition min_turn (key : GuiExpandedApp.PhoneMetrics → Z)
    (st : option str * option Z) (m : GuiExpandedApp.PhoneMetrics)
  : option str * option Z :=
  match st.2 with
  | None => (Some (GuiExpandedApp.metrics_model m), Some (key m))
  | Some v =>
      if key m <? v then (Some (GuiExpandedApp.metrics_model m), Some (key m))
      else if (key m =? v) && GuiExpandedApp.truthy st.1
      then (GuiExpandedApp.append_model st.1 (GuiExpandedApp.metrics_model m), st.2)
      else st
  end.

(** The text of a parenthesized annotation: it holds no closing parenthesis
    and no line break. *)
Definition annotation (w : str) : Prop :=
  Forall (λ c, c ≠ ")"%char ∧ c ≠ "010"%char) w.

(** * Properties *)

(** ** Sorted sequences of a set *)

Section sorted_facts.
Implicit Types (s : gset Z) (l : list Z).

Lemma elem_of_sorted s x : x ∈ sorted s ↔ x ∈ s.
Proof.
  unfold sorted. rewrite merge_sort_Permutation. apply elem_of_elements.
Qed.

Lemma le_sorted_nodup_lt l :
  StronglySorted Z.le l → NoDup l → StronglySorted Z.lt l.
Proof.
  induction 1 as [|x l Hl IH Hx]; intros Hnd; constructor.
  - apply IH. by inversion Hnd.
  - apply NoDup_cons in Hnd as [Hnotin _].
    rewrite Forall_forall in Hx |- *. intros y Hy.
    assert (x ≠ y) by (by intros ->).
    specialize (Hx y Hy). lia.
Qed.

Lemma sorted_strictly s : StronglySorted Z.lt (sorted s).
Proof.
  apply le_sorted_nodup_lt.
  - unfold sorted. apply (StronglySorted_merge_sort Z.le).
  - unfold sorted. rewrite merge_sort_Permutation. apply NoDup_elements.
Qed.

Lemma sorted_ascending s : ascending_seq_of (sorted s) s.
Proof. split; [apply sorted_strictly | apply elem_of_sorted]. Qed.

Lemma sorted_empty : sorted ∅ = [].
Proof. reflexivity. Qed.

Lemma sorted_eq_nil s : s = ∅ → sorted s = [].
Proof. by intros ->. Qed.

Lemma lt_sorted_nodup l : StronglySorted Z.lt l → NoDup l.
Proof.
  induction 1 as [|x l Hl IH Hx]; constructor; auto.
  rewrite Forall_forall in Hx. intros Hin.
  specialize (Hx x Hin). lia.
Qed.

(** A set has one ascending sequence. *)
Lemma ascending_seq_unique l1 l2 s :
  ascending_seq_of l1 s → ascending_seq_of l2 s → l1 = l2.
Proof.
  intros [S1 E1] [S2 E2].
  apply (StronglySorted_unique_strong Z.lt); try done.
  - intros x y _ _ Hxy Hyx. lia.
  - apply NoDup_Permutation.
    + apply lt_sorted_nodup, S1.
    + apply lt_sorted_nodup, S2.
    + intros x. by rewrite E1, E2.
Qed.
End sorted_facts.

(** ** Loops *)

Section loops.
Context {A S : Type}.
Implicit Types (l : list A) (body : S → A → result S).

(** A loop whose body keeps an invariant, and never raises while it
    holds, ends normally in a state where the invariant holds. *)
Lemma for_each_invariant (I : S → Prop) (Q : A → Prop) l body s :
  Forall Q l →
  (∀ s a, I s → Q a → ∃ s', body s a = Ok s' ∧ I s') →
  I s →
  ∃ s', for_each l body s = Ok s' ∧ I s'.
Proof.
  intros Hl Hbody. revert s.
  induction Hl as [|a l Ha Hl IH]; intros s Hs; simpl.
  - eauto.
  - destruct (Hbody s a Hs Ha) as (s1 & -> & Hs1). simpl.
    apply IH, Hs1.
Qed.
End loops.

(** ** The comparison, carrier by carrier *)

Lemma profile_of_bands_info c : profile_of (bands_info_of c) = Some c.
Proof. by destruct c. Qed.

Section comparison.
Variables phone_lte_bands phone_nr_bands : gset Z.

Let turn := compare_carrier phone_lte_bands phone_nr_bands.
Let report := report_of phone_lte_bands phone_nr_bands.

Lemma compare_carrier_profile results name bands_info c :
  profile_of bands_info = Some c →
  turn results (name, bands_info) = Ok (<[name := report c]> results).
Proof.
  unfold profile_of, turn, compare_carrier, getitem. simpl.
  destruct (bands_info !! "4G/LTE") as [l|]; [simpl|done].
  destruct (bands_info !! "5G") as [n|]; [simpl|done].
  destruct (bands_info !! "Core LTE") as [k|]; [simpl|done].
  by intros [= <-].
Qed.

(** A table entry without one of the three keys stops the comparison with
    a [KeyError]. *)
Lemma compare_carrier_key_error results name bands_info :
  profile_of bands_info = None →
  turn results (name, bands_info) = Raise KeyError.
Proof.
  unfold profile_of, turn, compare_carrier, getitem. simpl.
  destruct (bands_info !! "4G/LTE") as [l|]; [simpl|done].
  destruct (bands_info !! "5G") as [n|]; [simpl|done].
  destruct (bands_info !! "Core LTE") as [k|]; [simpl|done].
  done.
Qed.

Lemma compare_items (items : list (string * gmap string (gset Z))) results :
  NoDup items.*1 →
  Forall (λ item, is_Some (profile_of item.2)) items →
  ∃ results',
    for_each items turn results = Ok results' ∧
    ∀ name, results' !! name =
            match (list_to_map items : gmap string _) !! name with
            | Some bands_info => report <$> profile_of bands_info
            | None => results !! name
            end.
Proof.
  revert results.
  induction items as [|[name0 info0] items IH]; intros results Hnd Hall.
  - exists results. split; [done|]. intros name. simpl. by rewrite lookup_empty.
  - apply NoDup_cons in Hnd as [Hfresh Hnd].
    apply Forall_cons in Hall as [[c Hc] Hall].
    simpl. rewrite (compare_carrier_profile _ _ _ c Hc). simpl.
    destruct (IH (<[name0 := report c]> results) Hnd Hall) as (res & -> & Hres).
    exists res. split; [done|]. intros name. rewrite Hres.
    simpl in *. destruct (decide (name0 = name)) as [->|Hne].
    + rewrite lookup_insert_eq.
      apply not_elem_of_list_to_map_1 in Hfresh. rewrite Hfresh.
      rewrite lookup_insert_eq. by rewrite Hc.
    + rewrite !(lookup_insert_ne _ name0 name) by done. done.
Qed.

(** On a table of profiles the comparison ends normally, with the report
    of each profile under the carrier's name. *)
Lemma compare_profiles (carriers : gmap string CarrierProfile) :
  compare_phone_to_carrier phone_lte_bands phone_nr_bands (bands_info_of <$> carriers)
  = Ok (report <$> carriers).
Proof.
  unfold compare_phone_to_carrier.
  destruct (compare_items (map_to_list (bands_info_of <$> carriers)) ∅)
    as (res & Hrun & Hres).
  - apply NoDup_fst_map_to_list.
  - apply Forall_forall. intros [name info] Hin. simpl.
    apply elem_of_map_to_list in Hin. rewrite lookup_fmap in Hin.
    destruct (carriers !! name) as [c|]; simplify_eq/=.
    rewrite profile_of_bands_info. eauto.
  - fold turn. rewrite Hrun. f_equal. apply map_eq. intros name.
    rewrite Hres, list_to_map_to_list, !lookup_fmap.
    destruct (carriers !! name) as [c|]; simpl.
    + by rewrite profile_of_bands_info.
    + apply lookup_empty.
Qed.
End comparison.

(** ** What a match consumes *)

Section matcher_facts.
Context {A : Type} (Q : ascii → Prop).
Implicit Types (k : mstate → option A) (st : mstate) (r : regex).

Lemma star_iter_consumes body n :
  consumes Q body → consumes Q (λ k, star_iter body k n).
Proof.
  intros Hbody. induction n as [|n IH]; intros k st a; simpl.
  - intros Hk. exists st, []. by split.
  - destruct (body _ st) as [a'|] eqn:Hb.
    + intros [= ->]. apply Hbody in Hb as (st1 & w1 & Hk1 & Hrest1 & Hw1).
      destruct (_ <? _)%nat; [|done].
      apply IH in Hk1 as (st2 & w2 & Hk2 & Hrest2 & Hw2).
      exists st2, (w1 ++ w2). split; [done|]. split.
      * by rewrite Hrest1, Hrest2, (assoc_L (++)).
      * by apply Forall_app.
    + intros Hk. exists st, []. by split.
Qed.

Lemma rmatch_consumes r : only_chars Q r → consumes (A:=A) Q (rmatch r).
Proof.
  induction r as [|p| |r1 IH1 r2 IH2|r1 IH1 r2 IH2|r1 IH1|r1 IH1];
    simpl; intros Hr k st a.
  - intros Hk. exists st, []. by split.
  - destruct (rest st) as [|c s] eqn:Hs; [done|].
    destruct (p c) eqn:Hp; [|done]. intros Hk.
    exists (MState (Some c) s (grp st)), [c]. split; [done|]. split; [done|].
    constructor; auto.
  - destruct (at_boundary st); [|done]. intros Hk. exists st, []. by split.
  - destruct Hr as [Hr1 Hr2]. intros Hm.
    apply (IH1 Hr1) in Hm as (st1 & w1 & Hm & Hrest1 & Hw1).
    apply (IH2 Hr2) in Hm as (st2 & w2 & Hk & Hrest2 & Hw2).
    exists st2, (w1 ++ w2). split; [done|]. split.
    + by rewrite Hrest1, Hrest2, (assoc_L (++)).
    + by apply Forall_app.
  - destruct Hr as [Hr1 Hr2].
    destruct (rmatch r1 k st) as [a'|] eqn:Hm1.
    + intros [= ->]. by apply (IH1 Hr1).
    + by apply (IH2 Hr2).
  - by apply (star_iter_consumes (rmatch r1) (length (rest st))), IH1.
  - intros Hm. apply (IH1 Hr) in Hm as (st1 & w1 & Hk & Hrest1 & Hw1).
    exists (set_grp (consumed st st1) st1), w1. by split.
Qed.

Lemma consumed_app st st' w : rest st = w ++ rest st' → consumed st st' = w.
Proof.
  intros Hrest. unfold consumed. rewrite Hrest, length_app.
  replace (length w + length (rest st') - length (rest st'))%nat
    with (length w) by lia.
  by rewrite take_app_length.
Qed.

Lemma star_iter_keeps_group body n :
  keeps_group Q body → keeps_group Q (λ k, star_iter body k n).
Proof.
  intros Hbody. induction n as [|n IH]; intros k st a Hst; simpl.
  - eauto.
  - destruct (body _ st) as [a'|] eqn:Hb.
    + intros [= ->]. apply Hbody in Hb as (st1 & Hk1 & Hst1); [|done].
      destruct (_ <? _)%nat; [|done]. by apply IH in Hk1.
    + eauto.
Qed.

Lemma rmatch_keeps_group r : groups_only Q r → keeps_group (A:=A) Q (rmatch r).
Proof.
  induction r as [|p| |r1 IH1 r2 IH2|r1 IH1 r2 IH2|r1 IH1|r1 IH1];
    simpl; intros Hr k st a Hst.
  - eauto.
  - destruct (rest st) as [|c s]; [done|]. destruct (p c); [|done].
    intros Hk. eexists. split; [exact Hk|]. exact Hst.
  - destruct (at_boundary st); [|done]. eauto.
  - destruct Hr as [Hr1 Hr2]. intros Hm.
    apply (IH1 Hr1) in Hm as (st1 & Hm & Hst1); [|done].
    by apply (IH2 Hr2) in Hm.
  - destruct Hr as [Hr1 Hr2].
    destruct (rmatch r1 k st) as [a'|] eqn:Hm1.
    + intros [= ->]. by apply (IH1 Hr1) in Hm1.
    + intros Hm. by apply (IH2 Hr2) in Hm.
  - intros Hm.
    exact (star_iter_keeps_group (rmatch r1) _ (IH1 Hr) k st a Hst Hm).
  - intros Hm. apply (rmatch_consumes r1 Hr) in Hm as (st1 & w1 & Hk & Hrest1 & Hw1).
    eexists. split; [exact Hk|].
    intros w [= <-]. by rewrite (consumed_app _ _ w1).
Qed.
End matcher_facts.

(** ** What [findall] returns *)

Lemma only_chars_any r : only_chars (λ _, True) r.
Proof. induction r; simpl; auto. Qed.

Lemma match_at_suffix r st st' :
  match_at r st = Some st' → ∃ w, rest st = w ++ rest st'.
Proof.
  intros Hm. apply (rmatch_consumes _ r (only_chars_any r)) in Hm
    as (st1 & w & [= ->] & Hrest & _).
  by exists w.
Qed.

Lemma search_from_match r p s st0 st1 :
  search_from r p s = Some (st0, st1) →
  match_at r st0 = Some st1 ∧ (length (rest st0) ≤ length s)%nat.
Proof.
  revert p. induction s as [|c s IH]; intros p; simpl.
  - destruct (match_at r (MState p [] None)) eqn:Hm; [|done].
    intros ?. simplify_eq. by split.
  - destruct (match_at r (MState p (c :: s) None)) eqn:Hm.
    + intros ?. simplify_eq. by split.
    + intros H%IH. destruct H. split; [done|lia].
Qed.

Lemma finditer_match fuel r st st0 st1 :
  (st0, st1) ∈ finditer fuel r st → match_at r st0 = Some st1.
Proof.
  revert st. induction fuel as [|fuel IH]; intros st; simpl.
  - by intros ?%elem_of_nil.
  - destruct (search_from r _ _) as [[st0' st1']|] eqn:Hs;
      [|by intros ?%elem_of_nil].
    intros [[= -> ->]|Hin]%elem_of_cons.
    + by apply search_from_match in Hs as [? _].
    + destruct (_ <? _)%nat; [by eapply IH|].
      destruct (step st1') as [st2|]; [by eapply IH|by apply elem_of_nil in Hin].
Qed.

(** The scan never runs out of fuel: any two bounds above the length of
    the remaining text give the same matches. *)
Lemma finditer_enough_fuel r f1 f2 st :
  (length (rest st) < f1)%nat → (length (rest st) < f2)%nat →
  finditer f1 r st = finditer f2 r st.
Proof.
  revert f2 st. induction f1 as [|f1 IH]; intros f2 st H1 H2; [lia|].
  destruct f2 as [|f2]; [lia|]. simpl.
  destruct (search_from r _ _) as [[st0 st1]|] eqn:Hs; [|done].
  apply search_from_match in Hs as [Hm Hlen].
  apply match_at_suffix in Hm as [w Hw].
  assert (length (rest st1) ≤ length (rest st0))%nat
    by (rewrite Hw, length_app; lia).
  f_equal. destruct (_ <? _)%nat eqn:Hlt.
  - apply Nat.ltb_lt in Hlt. apply IH; lia.
  - unfold step. destruct (rest st1) as [|c s] eqn:Hs1; [done|].
    simpl in *. apply IH; simpl; lia.
Qed.

Section findall_facts.
Context (Q : ascii → Prop).

Lemma findall_whole r s w :
  ngroups r = 0%nat → only_chars Q r → w ∈ findall r s → Forall Q w.
Proof.
  intros Hn Hr. unfold findall. rewrite Hn. simpl.
  intros ([st0 st1] & -> & Hin)%list_elem_of_fmap. simpl.
  apply finditer_match in Hin.
  apply (rmatch_consumes Q r Hr) in Hin as (st' & w & [= ->] & Hrest & Hw).
  simpl in Hrest. by rewrite (consumed_app _ _ w).
Qed.

Lemma findall_group r s w :
  ngroups r ≠ 0%nat → groups_only Q r → w ∈ findall r s → Forall Q w.
Proof.
  intros Hn Hr. unfold findall.
  destruct (ngroups r =? 0)%nat eqn:Hz; [by apply Nat.eqb_eq in Hz|].
  intros ([st0 st1] & -> & Hin)%list_elem_of_fmap. simpl.
  apply finditer_match in Hin.
  apply (rmatch_keeps_group Q r Hr) in Hin as (st' & [= ->] & Hg);
    [|by intros w' [=]].
  destruct (grp st1) as [w|] eqn:Hw; simpl; [by apply Hg|constructor].
Qed.
End findall_facts.

(** ** Integer parsing *)

Ltac by_cases_on_char c :=
  destruct c as [[] [] [] [] [] [] [] []]; vm_compute; first [done | auto].

Lemma decimal_not_space c : decimal c → is_space c = false.
Proof. unfold decimal. by_cases_on_char c. Qed.

Lemma decimal_not_sign c : decimal c → is_code 45 c = false ∧ is_code 43 c = false.
Proof. unfold decimal. by_cases_on_char c. Qed.

Lemma digit_value_nonneg c : 0 ≤ digit_value c ↔ (48 ≤ code c)%N.
Proof. unfold digit_value. lia. Qed.

Lemma decimal_value_nonneg c : decimal c → 0 ≤ digit_value c.
Proof.
  unfold decimal, is_decimal, in_range. intros [H _]%andb_true_iff.
  apply digit_value_nonneg. by apply N.leb_le.
Qed.

Lemma digits_from_nonneg s : ∀ acc v, 0 ≤ acc → digits_from acc s = Some v → 0 ≤ v.
Proof.
  induction s as [s IH] using (induction_ltof1 _ (@length ascii)).
  unfold ltof in IH. intros acc v Hacc. destruct s as [|c s]; simpl.
  - by intros [= <-].
  - destruct (is_decimal c) eqn:Hc.
    + apply IH; [simpl; lia|]. pose proof (decimal_value_nonneg c Hc). lia.
    + destruct (is_code 95 c); [|done]. destruct s as [|d s]; [done|].
      destruct (is_decimal d) eqn:Hd; [|done].
      apply IH; [simpl; lia|]. pose proof (decimal_value_nonneg d Hd). lia.
Qed.

Lemma digits_nonneg s v : digits s = Some v → 0 ≤ v.
Proof.
  destruct s as [|c s]; simpl; [done|].
  destruct (is_decimal c) eqn:Hc; [|done].
  apply digits_from_nonneg. by apply decimal_value_nonneg.
Qed.

Lemma decimal_not_int_space c : decimal c → is_int_space c = false.
Proof. unfold decimal. by_cases_on_char c. Qed.

Lemma int_lstrip_decimal s : Forall decimal s → int_lstrip s = s.
Proof.
  destruct 1 as [|c s Hc Hs]; simpl; [done|]. by rewrite decimal_not_int_space.
Qed.

Lemma int_strip_decimal s : Forall decimal s → int_strip s = s.
Proof.
  intros Hs. unfold int_strip. rewrite (int_lstrip_decimal s Hs).
  rewrite int_lstrip_decimal; [apply rev_involutive|].
  by apply Forall_rev.
Qed.

(** [int] raises nothing but [ValueError]. *)
Lemma py_int_cases s : (∃ v, py_int s = Ok v) ∨ py_int s = Raise ValueError.
Proof.
  unfold py_int. destruct (int_strip s) as [|c s']; simpl.
  - by right.
  - destruct (is_code 45 c); [|destruct (is_code 43 c)];
      (destruct (digits _); [|by right]);
      (destruct (_ <? _); [by right|left; eauto]).
Qed.

(** On a run of decimal digits [int] gives no negative number. *)
Lemma py_int_decimal_nonneg s v : Forall decimal s → py_int s = Ok v → 0 ≤ v.
Proof.
  intros Hs. unfold py_int. rewrite (int_strip_decimal s Hs).
  destruct Hs as [|c s Hc Hs]; [done|].
  destruct (decimal_not_sign c Hc) as [-> ->].
  destruct (digits (c :: s)) as [v'|] eqn:Hd; [|done].
  destruct (_ <? _); [done|].
  intros [= <-]. by eapply digits_nonneg.
Qed.

(** A run of decimal digits has a value, and [int] gives it unless the run
    is longer than [int_max_str_digits]. *)
Lemma digits_from_decimal s : ∀ acc, Forall decimal s → is_Some (digits_from acc s).
Proof.
  induction s as [|c s IH]; intros acc Hs; simpl; [done|].
  apply Forall_cons in Hs as [Hc Hs]. unfold decimal in Hc. rewrite Hc.
  by apply IH.
Qed.

Lemma digit_count_decimal s : Forall decimal s → digit_count s = Z.of_nat (length s).
Proof.
  induction 1 as [|c s Hc Hs IH]; [done|].
  unfold decimal in Hc. cbn [digit_count length]. rewrite Hc, IH. lia.
Qed.

Lemma py_int_decimal_raises s :
  s ≠ [] → Forall decimal s →
  py_int s = Raise ValueError ↔ int_max_str_digits < Z.of_nat (length s).
Proof.
  intros Hne Hs. unfold py_int. rewrite (int_strip_decimal s Hs).
  destruct s as [|c s]; [done|].
  pose proof (digit_count_decimal _ Hs) as Hcount.
  apply Forall_cons in Hs as [Hc Hs].
  destruct (decimal_not_sign c Hc) as [-> ->].
  unfold digits. unfold decimal in Hc. rewrite Hc.
  destruct (digits_from_decimal s (digit_value c) Hs) as [v ->].
  rewrite Hcount. destruct (int_max_str_digits <? _) eqn:Hlt.
  - apply Z.ltb_lt in Hlt. by split.
  - apply Z.ltb_ge in Hlt. split; [done|]. lia.
Qed.

(** ** The bodies of the loops *)

Lemma add_nr_band_cases nr_bands band_str :
  (∃ v, py_int band_str = Ok v ∧
        add_nr_band nr_bands band_str = Ok (nr_bands ∪ {[v]}))
  ∨ (py_int band_str = Raise ValueError ∧
     add_nr_band nr_bands band_str = Ok nr_bands).
Proof.
  unfold add_nr_band.
  destruct (py_int_cases band_str) as [[v ->]| ->]; [left|right]; eauto.
Qed.

Lemma add_lte_band_cases lte_bands part :
  (∃ v, py_int part = Ok v ∧ 1 ≤ v ≤ 100 ∧
        add_lte_band lte_bands part = Ok (lte_bands ∪ {[v]}))
  ∨ add_lte_band lte_bands part = Ok lte_bands.
Proof.
  unfold add_lte_band.
  destruct (py_int_cases part) as [[v ->]| ->]; [|by right]. simpl.
  destruct (1 <=? v) eqn:H1; [|by right].
  destruct (v <=? 100) eqn:H2; [|by right].
  left. exists v. repeat split; auto; lia.
Qed.

Lemma scan_lte_line_within lte_bands line :
  bands_within 1 100 lte_bands →
  ∃ s', scan_lte_line lte_bands line = Ok s' ∧ bands_within 1 100 s'.
Proof.
  intros Hs. unfold scan_lte_line.
  destruct (_ || _); [|eauto].
  apply (for_each_invariant (bands_within 1 100) (λ _, True)); [|clear|done].
  - apply Forall_forall. done.
  - intros s part Hin _.
    destruct (add_lte_band_cases s part) as [(v & _ & Hv & ->)| ->]; [|eauto].
    eexists. split; [done|]. intros x [?| ->%elem_of_singleton]%elem_of_union; auto.
Qed.

Lemma scan_lte_within text :
  ∃ lte_bands, scan_lte text = Ok lte_bands ∧ bands_within 1 100 lte_bands.
Proof.
  unfold scan_lte.
  apply (for_each_invariant (bands_within 1 100) (λ _, True)).
  - apply Forall_forall. done.
  - intros s line Hs _. by apply scan_lte_line_within.
  - by intros x ?%not_elem_of_empty.
Qed.

Lemma add_nr_bands_from (band_strs : list str) nr_bands :
  Forall (Forall decimal) band_strs →
  bands_from 0 nr_bands →
  ∃ s', for_each band_strs add_nr_band nr_bands = Ok s' ∧ bands_from 0 s'.
Proof.
  intros Hall. apply (for_each_invariant (bands_from 0) (Forall decimal)); [done|].
  intros s band_str Hs Hdec.
  destruct (add_nr_band_cases s band_str) as [(v & Hv & ->)|[_ ->]]; [|eauto].
  eexists. split; [done|].
  intros x [?| ->%elem_of_singleton]%elem_of_union; [auto|].
  by eapply py_int_decimal_nonneg.
Qed.

(** ** The scanner as a whole *)

Lemma re_digits_decimal : ngroups re_digits = 0%nat ∧ only_chars decimal re_digits.
Proof. split; [done|]. simpl. by split. Qed.

Lemma re_nr_single_decimal :
  ngroups re_nr_single ≠ 0%nat ∧ groups_only decimal re_nr_single.
Proof. split; [done|]. simpl. repeat split; done. Qed.

Lemma findall_digits_decimal s : Forall (Forall decimal) (findall re_digits s).
Proof.
  apply Forall_forall. intros w Hw.
  destruct re_digits_decimal as [Hn Hc]. by apply (findall_whole decimal re_digits s).
Qed.

Lemma findall_nr_single_decimal s : Forall (Forall decimal) (findall re_nr_single s).
Proof.
  apply Forall_forall. intros w Hw.
  destruct re_nr_single_decimal as [Hn Hc]. by apply (findall_group decimal re_nr_single s).
Qed.

(** Both variants end normally, with the sorted members of two sets: LTE
    bands between 1 and 100, NR bands from 0 up. *)
Lemma perplexity_parse_bands text :
  ∃ lte_bands nr_bands,
    Perplexity.parse_phone_bands text = Ok (sorted lte_bands, sorted nr_bands)
    ∧ bands_within 1 100 lte_bands ∧ bands_from 0 nr_bands.
Proof.
  unfold Perplexity.parse_phone_bands.
  destruct (for_each_invariant (bands_from 0) (λ _ : str, True)
              (findall re_nr_chain (list_ascii_of_string text))
              (λ nr_bands match_group,
                 for_each (findall re_digits match_group) add_nr_band nr_bands) ∅)
    as (nr & -> & Hnr).
  - apply Forall_forall. done.
  - intros s match_group Hs _.
    apply add_nr_bands_from; [apply findall_digits_decimal|done].
  - by intros x ?%not_elem_of_empty.
  - destruct (scan_lte_within (list_ascii_of_string text)) as (lte & -> & Hlte).
    by exists lte, nr.
Qed.

Lemma gui_expanded_parse_bands text :
  ∃ lte_bands nr_bands,
    GuiExpanded.parse_phone_bands text = Ok (sorted lte_bands, sorted nr_bands)
    ∧ bands_within 1 100 lte_bands ∧ bands_from 0 nr_bands.
Proof.
  unfold GuiExpanded.parse_phone_bands.
  destruct (add_nr_bands_from
              (findall re_nr_single (list_ascii_of_string text)) ∅)
    as (nr & -> & Hnr).
  - apply findall_nr_single_decimal.
  - by intros x ?%not_elem_of_empty.
  - destruct (scan_lte_within (list_ascii_of_string text)) as (lte & -> & Hlte).
    by exists lte, nr.
Qed.

Lemma Forall_sorted (P : Z → Prop) s : (∀ x, x ∈ s → P x) → Forall P (sorted s).
Proof.
  intros H. apply Forall_forall. intros x Hx. by apply H, elem_of_sorted.
Qed.

Lemma list_to_set_sorted s : list_to_set (sorted s) = s.
Proof.
  apply set_eq. intros x. by rewrite elem_of_list_to_set, elem_of_sorted.
Qed.

(** The device's bands split a carrier's set in two. *)
Lemma supported_missing_partition (phone carrier : gset Z) :
  (phone ∩ carrier) ∩ (carrier ∖ phone) = ∅
  ∧ (phone ∩ carrier) ∪ (carrier ∖ phone) = carrier.
Proof.
  split; apply set_eq; intros x;
    rewrite ?elem_of_union, ?elem_of_intersection, ?elem_of_difference,
      ?elem_of_empty;
    destruct (decide (x ∈ phone)); tauto.
Qed.

Lemma split_on_absent sep s : Forall (λ c, c ≠ sep) s → split_on sep s = [s].
Proof.
  induction 1 as [|c s Hc Hs IH]; simpl; [done|].
  destruct (Ascii.eqb_spec c sep) as [->|_]; [done|]. by rewrite IH.
Qed.

Lemma list_ascii_of_string_app (a b : string) :
  list_ascii_of_string (a +:+ b) = list_ascii_of_string a ++ list_ascii_of_string b.
Proof. induction a as [|c a IH]; simpl; [done|]. by rewrite IH. Qed.

(** ** Patterns that need a character of a class *)

Lemma rmatch_requires {A : Type} (Q : ascii → Prop) r :
  requires Q r →
  ∀ (k : mstate → option A) st a, rmatch r k st = Some a →
    ∃ st' w, k st' = Some a ∧ rest st = w ++ rest st' ∧ Exists Q w.
Proof.
  induction r as [|p| |r1 IH1 r2 IH2|r1 IH1 r2 IH2|r1 IH1|r1 IH1];
    simpl; intros Hr k st a; try done.
  - destruct (rest st) as [|c s] eqn:Hs; [done|].
    destruct (p c) eqn:Hp; [|done]. intros Hk.
    exists (MState (Some c) s (grp st)), [c]. split; [done|]. split; [done|].
    apply Exists_cons_hd. auto.
  - intros Hm. destruct Hr as [Hr|Hr].
    + apply (IH1 Hr) in Hm as (st1 & w1 & Hm & Hrest1 & Hw1).
      apply (rmatch_consumes _ r2 (only_chars_any r2)) in Hm
        as (st2 & w2 & Hk & Hrest2 & _).
      exists st2, (w1 ++ w2). split; [done|]. split.
      * by rewrite Hrest1, Hrest2, (assoc_L (++)).
      * apply Exists_app. by left.
    + apply (rmatch_consumes _ r1 (only_chars_any r1)) in Hm
        as (st1 & w1 & Hm & Hrest1 & _).
      apply (IH2 Hr) in Hm as (st2 & w2 & Hk & Hrest2 & Hw2).
      exists st2, (w1 ++ w2). split; [done|]. split.
      * by rewrite Hrest1, Hrest2, (assoc_L (++)).
      * apply Exists_app. by right.
  - destruct Hr as [Hr1 Hr2].
    destruct (rmatch r1 k st) as [a'|] eqn:Hm1.
    + intros [= ->]. by apply (IH1 Hr1).
    + by apply (IH2 Hr2).
  - intros Hm. apply (IH1 Hr) in Hm as (st1 & w1 & Hk & Hrest1 & Hw1).
    exists (set_grp (consumed st st1) st1), w1. by split.
Qed.

Lemma search_from_suffix r p s st0 st1 :
  search_from r p s = Some (st0, st1) → rest st0 `suffix_of` s.
Proof.
  revert p. induction s as [|c s IH]; intros p; simpl.
  - destruct (match_at r (MState p [] None)) eqn:Hm; [|done].
    intros ?. by simplify_eq.
  - destruct (match_at r (MState p (c :: s) None)) eqn:Hm.
    + intros ?. by simplify_eq.
    + intros H%IH. by apply suffix_cons_r.
Qed.

(** A pattern that needs a character of [Q] has no match in a text
    without such characters. *)
Lemma search_from_none (Q : ascii → Prop) r p s :
  requires Q r → Forall (λ c, ¬ Q c) s → search_from r p s = None.
Proof.
  intros Hr Hs. destruct (search_from r p s) as [[st0 st1]|] eqn:Hsearch; [|done].
  pose proof (search_from_suffix _ _ _ _ _ Hsearch) as [pre Hpre].
  apply search_from_match in Hsearch as [Hm _].
  apply (rmatch_requires Q r Hr) in Hm as (st' & w & _ & Hrest & Hw).
  simpl in Hrest. rewrite Hpre, Hrest in Hs.
  apply Forall_app in Hs as [_ [Hs _]%Forall_app].
  apply Exists_exists in Hw as (c & Hc & HQ).
  rewrite Forall_forall in Hs. by destruct (Hs c Hc).
Qed.

Lemma findall_none (Q : ascii → Prop) r s :
  requires Q r → Forall (λ c, ¬ Q c) s → findall r s = [].
Proof.
  intros Hr Hs. unfold findall, matches. simpl.
  by rewrite (search_from_none Q r None s Hr Hs).
Qed.

Lemma re_sub_empty_none (Q : ascii → Prop) r s :
  requires Q r → Forall (λ c, ¬ Q c) s → re_sub_empty r s = s.
Proof.
  intros Hr Hs. unfold re_sub_empty, matches. simpl.
  by rewrite (search_from_none Q r None s Hr Hs).
Qed.

(** ** A parenthesized annotation *)

Section greedy_class.
Context {A : Type} (p : ascii → bool).
Implicit Types (k : mstate → option A).

Lemma star_iter_S (body : (mstate → option A) → mstate → option A) k n st :
  star_iter body k (S n) st
  = match body (λ st', if (length (rest st') <? length (rest st))%nat
                       then star_iter body k n st' else None) st
    with
    | Some a => Some a
    | None => k st
    end.
Proof. done. Qed.

Lemma rmatch_cls k pr c s g :
  rmatch (Cls p) k (MState pr (c :: s) g)
  = if p c then k (MState (Some c) s g) else None.
Proof. done. Qed.

(** Where the next character is not of the class, the loop of the class
    takes no turn. *)
Lemma star_iter_class_stop k n pr r g :
  match r with c :: _ => p c = false | [] => True end →
  star_iter (rmatch (Cls p)) k n (MState pr r g) = k (MState pr r g).
Proof.
  intros Hr. destruct n as [|n]; [done|]. rewrite star_iter_S.
  destruct r as [|c r]; [done|]. by rewrite rmatch_cls, Hr.
Qed.

(** The loop takes all the characters of the class when the rest of the
    pattern matches after them. *)
Lemma star_iter_class_all k w : ∀ n pr r g a,
  Forall (λ c, p c = true) w →
  (length w ≤ n)%nat →
  match r with c :: _ => p c = false | [] => True end →
  (∀ pr', k (MState pr' r g) = Some a) →
  star_iter (rmatch (Cls p)) k n (MState pr (w ++ r) g) = Some a.
Proof.
  induction w as [|c w IH]; intros n pr r g a Hw Hn Hr Hk.
  - simpl. by rewrite star_iter_class_stop.
  - apply Forall_cons in Hw as [Hc Hw].
    destruct n as [|n]; [simpl in Hn; lia|]. simpl in Hn.
    change ((c :: w) ++ r) with (c :: w ++ r).
    rewrite star_iter_S, rmatch_cls, Hc. cbn [rest length].
    destruct (length (w ++ r) <? S (length (w ++ r)))%nat eqn:Hlt;
      [|apply Nat.ltb_ge in Hlt; lia].
    rewrite (IH n (Some c) r g a); [done|done|lia|done|done].
Qed.

End greedy_class.

Lemma search_from_cons r p c s :
  search_from r p (c :: s)
  = match match_at r (MState p (c :: s) None) with
    | Some st' => Some (MState p (c :: s) None, st')
    | None => search_from r (Some c) s
    end.
Proof. done. Qed.

Lemma match_at_parenthesized st :
  match_at re_parenthesized st
  = star_iter (rmatch (Cls is_space))
      (rmatch (Cls (Ascii.eqb "("))
         (λ st0, star_iter (rmatch (Cls (λ c, negb (one_of ")" c))))
                   (rmatch (Cls (Ascii.eqb ")")) Some)
                   (length (rest st0)) st0))
      (length (rest st)) (MState (prev st) (rest st) None).
Proof. done. Qed.

(** No annotation starts at a character that is neither white space nor an
    opening parenthesis. *)
Lemma no_annotation_at p c s :
  is_space c = false → c ≠ "("%char →
  match_at re_parenthesized (MState p (c :: s) None) = None.
Proof.
  intros Hc Hparen. rewrite match_at_parenthesized. cbn [prev rest].
  rewrite star_iter_class_stop by done. rewrite rmatch_cls.
  by destruct (Ascii.eqb_spec "(" c) as [<-|_].
Qed.

(** An annotation after a space is matched up to its closing parenthesis. *)
Lemma annotation_at p w :
  Forall (λ c, c ≠ ")"%char) w →
  match_at re_parenthesized (MState p (" " :: "(" :: w ++ [")"])%char None)
  = Some (MState (Some ")"%char) [] None).
Proof.
  intros Hw. rewrite match_at_parenthesized. cbn [prev rest].
  apply (star_iter_class_all is_space _ [" "%char]);
    [by repeat constructor|simpl; lia|done|].
  intros pr'. rewrite rmatch_cls. simpl Ascii.eqb. cbn iota. cbn [rest].
  apply star_iter_class_all; [|rewrite length_app; lia|done|done].
  eapply Forall_impl; [exact Hw|]. simpl. intros c Hc. unfold one_of. simpl.
  by destruct (Ascii.eqb_spec c ")").
Qed.

Lemma annotation_removed w :
  Forall (λ c, c ≠ ")"%char) w →
  re_sub_empty re_parenthesized (list_ascii_of_string "B28A (" ++ w ++ [")"%char])
  = list_ascii_of_string "B28A".
Proof.
  intros Hw. unfold re_sub_empty, matches.
  change (list_ascii_of_string "B28A (" ++ w ++ [")"%char])
    with ("B" :: "2" :: "8" :: "A" :: " " :: "(" :: w ++ [")"])%char.
  set (s := (" " :: "(" :: w ++ [")"])%char).
  assert (finditer (S (length ("B" :: "2" :: "8" :: "A" :: s)%char)) re_parenthesized
            (MState None ("B" :: "2" :: "8" :: "A" :: s)%char None)
          = [(MState (Some "A"%char) s None, MState (Some ")"%char) [] None)]) as ->.
  { cbn [finditer prev rest].
    rewrite !search_from_cons, !no_annotation_at by done.
    unfold s at 1. rewrite search_from_cons, annotation_at by done.
    fold s. cbn [rest length].
    destruct (0 <? length s)%nat eqn:Hlen; [|by unfold s in Hlen].
    done. }
  cbn [remove_matches rest].
  replace (length ("B" :: "2" :: "8" :: "A" :: s)%char - length s)%nat with 4%nat
    by (simpl; lia).
  done.
Qed.

Lemma strip_between c m d :
  is_space c = false → is_space d = false →
  strip (c :: m ++ [d]) = c :: m ++ [d].
Proof.
  intros Hc Hd. unfold strip, rstrip. cbn [lstrip]. rewrite Hc.
  assert (rev (c :: m ++ [d]) = d :: rev m ++ [c]) as Hrev.
  { simpl. by rewrite rev_app_distr. }
  rewrite Hrev. cbn [lstrip]. rewrite Hd, <- Hrev. apply rev_involutive.
Qed.

Lemma star_iter_some {A} (body : (mstate → option A) → mstate → option A) k n st :
  (∀ st', is_Some (k st')) → is_Some (star_iter body k n st).
Proof.
  intros Hk. destruct n as [|n]; simpl; [done|].
  by destruct (body _ st).
Qed.

(** A line that starts with "B" and a digit is scanned for LTE bands. *)
Lemma re_search_b_digits d s :
  is_decimal d = true →
  re_search re_b_digits ("B"%char :: d :: s) = true.
Proof.
  intros Hd. unfold re_search. rewrite search_from_cons.
  change (match_at re_b_digits (MState None ("B"%char :: d :: s) None))
    with (if is_decimal d
          then star_iter (rmatch (Cls is_decimal)) Some (length s)
                 (MState (Some d) s None)
          else None).
  rewrite Hd.
  by destruct (star_iter_some (rmatch (Cls is_decimal)) Some (length s)
                 (MState (Some d) s None)) as [st ->].
Qed.

(** The LTE scan of the token B28A followed by an annotation. *)
Lemma scan_lte_annotated w :
  annotation w →
  scan_lte (list_ascii_of_string "B28A (" ++ w ++ [")"%char]) = Ok {[28]}.
Proof.
  intros Hw. unfold scan_lte. rewrite split_on_absent.
  2:{ apply Forall_app. split; [by repeat constructor|].
      apply Forall_app. split; [|by repeat constructor].
      eapply Forall_impl; [exact Hw|]. by intros c [_ ?]. }
  cbn [for_each]. unfold scan_lte_line.
  change (list_ascii_of_string "B28A (" ++ w ++ [")"%char])
    with ("B"%char :: (list_ascii_of_string "28A (" ++ w) ++ [")"%char]).
  rewrite strip_between by done.
  change ("B"%char :: (list_ascii_of_string "28A (" ++ w) ++ [")"%char])
    with ("B"%char :: "2"%char :: list_ascii_of_string "8A (" ++ w ++ [")"%char]) at 2.
  rewrite re_search_b_digits, orb_true_r by done.
  change ("B"%char :: (list_ascii_of_string "28A (" ++ w) ++ [")"%char])
    with (list_ascii_of_string "B28A (" ++ w ++ [")"%char]).
  rewrite annotation_removed.
  2:{ eapply Forall_impl; [exact Hw|]. by intros c [? _]. }
  assert (for_each (findall re_lte_part (list_ascii_of_string "B28A")) add_lte_band ∅
          = Ok (∅ ∪ {[28]})) as -> by (by vm_compute).
  simpl. by rewrite (left_id_L ∅ (∪)).
Qed.

Lemma perplexity_parse_lte text lte_bands :
  scan_lte (list_ascii_of_string text) = Ok lte_bands →
  ∃ nr, Perplexity.parse_phone_bands text = Ok (sorted lte_bands, nr).
Proof.
  intros Hscan. destruct (perplexity_parse_bands text) as (l & n & Hp & _).
  unfold Perplexity.parse_phone_bands in *.
  destruct (for_each (findall re_nr_chain _) _ _) as [nr|]; [|done].
  rewrite Hscan. simpl. eauto.
Qed.

Lemma gui_expanded_parse_lte text lte_bands :
  scan_lte (list_ascii_of_string text) = Ok lte_bands →
  ∃ nr, GuiExpanded.parse_phone_bands text = Ok (sorted lte_bands, nr).
Proof.
  intros Hscan. destruct (gui_expanded_parse_bands text) as (l & n & Hp & _).
  unfold GuiExpanded.parse_phone_bands in *.
  destruct (for_each (findall re_nr_single _) _ _) as [nr|]; [|done].
  rewrite Hscan. simpl. eauto.
Qed.

(** * The claims *)

Local Open Scope string_scope.
Local Open Scope Z_scope.

(** C1. For device band sets [lte] and [nr] and a profile [c] found under
    [name] in the carrier table, the comparison returns a table that holds
    under [name] a report whose five fields are, each in strictly ascending
    order: the LTE bands of the device that the carrier uses, the LTE bands
    of the carrier that the device lacks, the core LTE bands among those
    missing ones, the NR bands of the device that the carrier uses, and the
    NR bands of the carrier that the device lacks. *)
Theorem compare_report_fields (lte nr : gset Z)
    (carriers : gmap string CarrierProfile) (name : string) (c : CarrierProfile) :
  carriers !! name = Some c →
  ∃ results r,
    compare_phone_to_carrier lte nr (bands_info_of <$> carriers) = Ok results
    ∧ results !! name = Some r
    ∧ ascending_seq_of (supported_lte r) (lte ∩ lteBands c)
    ∧ ascending_seq_of (missing_lte r) (lteBands c ∖ lte)
    ∧ ascending_seq_of (missing_core_lte r)
        (coreLteBands c ∩ list_to_set (missing_lte r))
    ∧ ascending_seq_of (supported_nr r) (nr ∩ nrBands c)
    ∧ ascending_seq_of (missing_nr r) (nrBands c ∖ nr).
Proof.
  intros Hc. exists (report_of lte nr <$> carriers), (report_of lte nr c).
  split; [apply compare_profiles|].
  split; [by rewrite lookup_fmap, Hc|].
  simpl. rewrite list_to_set_sorted.
  repeat split; try apply sorted_strictly; apply elem_of_sorted.
Qed.

Lemma compare_report_fields_verizon :
  ∃ results r,
    compare_phone_to_carrier (set_of [2; 4; 13; 66]) (set_of [77])
      (bands_info_of <$> us_carriers) = Ok results
    ∧ results !! "Verizon" = Some r
    ∧ ascending_seq_of (supported_lte r) (set_of [2; 4; 13; 66] ∩ lteBands verizon)
    ∧ ascending_seq_of (missing_lte r) (lteBands verizon ∖ set_of [2; 4; 13; 66])
    ∧ ascending_seq_of (missing_core_lte r)
        (coreLteBands verizon ∩ list_to_set (missing_lte r))
    ∧ ascending_seq_of (supported_nr r) (set_of [77] ∩ nrBands verizon)
    ∧ ascending_seq_of (missing_nr r) (nrBands verizon ∖ set_of [77]).
Proof.
  apply (compare_report_fields (set_of [2; 4; 13; 66]) (set_of [77])
           us_carriers "Verizon" verizon).
  vm_compute. reflexivity.
Defined.

(** C2. The score of a report is twice the number of supported LTE bands,
    plus the number of supported NR bands, minus twice the number of
    missing core LTE bands, and 0 when that number is negative; so it is
    never negative. *)
Theorem score_formula_floored (r : CarrierReport) :
  let raw := 2 * Z.of_nat (length (supported_lte r))
             + 1 * Z.of_nat (length (supported_nr r))
             - 2 * Z.of_nat (length (missing_core_lte r)) in
  calculate_compatibility_score r = (if decide (raw < 0) then 0 else raw)
  ∧ 0 ≤ calculate_compatibility_score r.
Proof.
  unfold calculate_compatibility_score. simpl. case_decide; lia.
Qed.

(** C4. Under the same conditions as C1 the report splits the carrier's
    sets in two: the supported and the missing LTE bands are disjoint and
    together make the carrier's LTE bands, the same holds for NR, and the
    missing core LTE bands are among the missing LTE bands and among the
    carrier's core LTE bands. *)
Theorem compare_partition (lte nr : gset Z)
    (carriers : gmap string CarrierProfile) (name : string) (c : CarrierProfile) :
  carriers !! name = Some c →
  ∃ results r,
    compare_phone_to_carrier lte nr (bands_info_of <$> carriers) = Ok results
    ∧ results !! name = Some r
    ∧ set_of (supported_lte r) ∩ set_of (missing_lte r) = ∅
    ∧ set_of (supported_lte r) ∪ set_of (missing_lte r) = lteBands c
    ∧ set_of (supported_nr r) ∩ set_of (missing_nr r) = ∅
    ∧ set_of (supported_nr r) ∪ set_of (missing_nr r) = nrBands c
    ∧ set_of (missing_core_lte r) ⊆ set_of (missing_lte r)
    ∧ set_of (missing_core_lte r) ⊆ coreLteBands c.
Proof.
  intros Hc. exists (report_of lte nr <$> carriers), (report_of lte nr c).
  split; [apply compare_profiles|].
  split; [by rewrite lookup_fmap, Hc|].
  unfold set_of. simpl. rewrite !list_to_set_sorted.
  destruct (supported_missing_partition lte (lteBands c)) as [? ?].
  destruct (supported_missing_partition nr (nrBands c)) as [? ?].
  repeat split; try done.
  - apply intersection_subseteq_r.
  - apply intersection_subseteq_l.
Qed.

Lemma compare_partition_tmobile :
  ∃ results r,
    compare_phone_to_carrier (set_of [2; 4; 41]) (set_of [41; 78])
      (bands_info_of <$> us_carriers) = Ok results
    ∧ results !! "T-Mobile" = Some r
    ∧ set_of (supported_lte r) ∩ set_of (missing_lte r) = ∅
    ∧ set_of (supported_lte r) ∪ set_of (missing_lte r) = lteBands tmobile
    ∧ set_of (supported_nr r) ∩ set_of (missing_nr r) = ∅
    ∧ set_of (supported_nr r) ∪ set_of (missing_nr r) = nrBands tmobile
    ∧ set_of (missing_core_lte r) ⊆ set_of (missing_lte r)
    ∧ set_of (missing_core_lte r) ⊆ coreLteBands tmobile.
Proof.
  apply (compare_partition (set_of [2; 4; 41]) (set_of [41; 78])
           us_carriers "T-Mobile" tmobile).
  vm_compute. reflexivity.
Defined.

(** C3 fails as stated: on "n1/2/3 5G, B41 LTE" the NR bands are not
    1, 2, 3 alone and the LTE bands are not 41 alone. *)
Lemma scenario_b_differs :
  ∃ lte nr,
    Perplexity.parse_phone_bands "n1/2/3 5G, B41 LTE" = Ok (lte, nr)
    ∧ nr ≠ [1; 2; 3] ∧ lte ≠ [41].
Proof. exists [2; 3; 41], [1; 2; 3; 5]. by split; [vm_compute|]. Qed.

(** C3, amended. On "n1/2/3 5G, B41 LTE" the chain after the n marker runs
    on through the blank to the 5 of "5G", so the NR bands are 1, 2, 3, 5;
    the line holds the word LTE, and its scan takes the bare 2 and 3 as
    well as B41, so the LTE bands are 2, 3, 41.  The variant of the expanded
    GUI, whose NR pattern has no chain, finds the NR band 1 only. *)
Theorem scenario_b_result :
  findall re_nr_chain (list_ascii_of_string "n1/2/3 5G, B41 LTE")
    = [list_ascii_of_string "1/2/3 5"]
  ∧ findall re_lte_part (list_ascii_of_string "n1/2/3 5G, B41 LTE")
    = [list_ascii_of_string "2"; list_ascii_of_string "3"; list_ascii_of_string "41"]
  ∧ Perplexity.parse_phone_bands "n1/2/3 5G, B41 LTE" = Ok ([2; 3; 41], [1; 2; 3; 5])
  ∧ GuiExpanded.parse_phone_bands "n1/2/3 5G, B41 LTE" = Ok ([2; 3; 41], [1]).
Proof. repeat split; vm_compute; reflexivity. Qed.

(** C5. On "B28A (700)" the LTE bands are 28 alone.  The parenthesized
    annotation is removed before the scan: whatever stands between the
    parentheses (no closing parenthesis, no line break), the scanner
    returns the LTE bands [28]; so it does for "(70)", a number that the
    range test would let pass.  The scan of what is left, "B28A", yields
    the digits 28 without the suffix. *)
Theorem scenario_c_result :
  Perplexity.parse_phone_bands "B28A (700)" = Ok ([28], [])
  ∧ GuiExpanded.parse_phone_bands "B28A (700)" = Ok ([28], [])
  ∧ (∀ w : string, annotation (list_ascii_of_string w) →
       (∃ nr, Perplexity.parse_phone_bands ("B28A (" +:+ w +:+ ")") = Ok ([28], nr))
       ∧ (∃ nr, GuiExpanded.parse_phone_bands ("B28A (" +:+ w +:+ ")")
                = Ok ([28], nr)))
  ∧ Perplexity.parse_phone_bands "B28A (70)" = Ok ([28], [])
  ∧ GuiExpanded.parse_phone_bands "B28A (70)" = Ok ([28], [])
  ∧ (∀ w : str, Forall (λ c, c ≠ ")"%char) w →
       re_sub_empty re_parenthesized
         (list_ascii_of_string "B28A (" ++ w ++ [")"%char])%list
       = list_ascii_of_string "B28A")
  ∧ findall re_lte_part (list_ascii_of_string "B28A") = [list_ascii_of_string "28"].
Proof.
  split; [by vm_compute|]. split; [by vm_compute|]. split.
  { intros w Hw.
    assert (scan_lte (list_ascii_of_string ("B28A (" +:+ w +:+ ")")) = Ok {[28]})
      as Hscan.
    { rewrite !list_ascii_of_string_app. by apply scan_lte_annotated. }
    split.
    - destruct (perplexity_parse_lte _ _ Hscan) as [nr Hp]. by exists nr.
    - destruct (gui_expanded_parse_lte _ _ Hscan) as [nr Hp]. by exists nr. }
  split; [by vm_compute|]. split; [by vm_compute|]. split.
  - apply annotation_removed.
  - by vm_compute.
Qed.

(** C6. The empty text gives two empty sequences, and no exception.  The
    comparison of the empty band sets with a profile [c] of the carrier
    table, whose core LTE bands are among its LTE bands (as the data model
    has it), reports no supported band, all LTE and NR bands of [c] as
    missing, and all core LTE bands of [c] as missing core bands. *)
Theorem empty_text_report :
  Perplexity.parse_phone_bands "" = Ok ([], [])
  ∧ GuiExpanded.parse_phone_bands "" = Ok ([], [])
  ∧ ∀ (carriers : gmap string CarrierProfile) (name : string) (c : CarrierProfile),
      carriers !! name = Some c →
      coreLteBands c ⊆ lteBands c →
      ∃ results r,
        compare_phone_to_carrier (set_of []) (set_of [])
          (bands_info_of <$> carriers) = Ok results
        ∧ results !! name = Some r
        ∧ supported_lte r = []
        ∧ ascending_seq_of (missing_lte r) (lteBands c)
        ∧ ascending_seq_of (missing_core_lte r) (coreLteBands c)
        ∧ supported_nr r = []
        ∧ ascending_seq_of (missing_nr r) (nrBands c).
Proof.
  split; [by vm_compute|]. split; [by vm_compute|].
  intros carriers name c Hc Hcore.
  exists (report_of ∅ ∅ <$> carriers), (report_of ∅ ∅ c).
  split; [apply compare_profiles|].
  split; [by rewrite lookup_fmap, Hc|].
  simpl. rewrite !intersection_empty_l_L, !difference_empty_L.
  replace (coreLteBands c ∩ lteBands c) with (coreLteBands c)
    by (symmetry; by apply subseteq_intersection_1_L).
  repeat split; try apply sorted_strictly; try apply elem_of_sorted; done.
Qed.

Lemma empty_text_report_att :
  ∃ results r,
    compare_phone_to_carrier (set_of []) (set_of [])
      (bands_info_of <$> us_carriers) = Ok results
    ∧ results !! "AT&T" = Some r
    ∧ supported_lte r = []
    ∧ ascending_seq_of (missing_lte r) (lteBands att)
    ∧ ascending_seq_of (missing_core_lte r) (coreLteBands att)
    ∧ supported_nr r = []
    ∧ ascending_seq_of (missing_nr r) (nrBands att).
Proof.
  apply (proj2 (proj2 empty_text_report) us_carriers "AT&T" att).
  - vm_compute. reflexivity.
  - apply (bool_decide_unpack (coreLteBands att ⊆ lteBands att)).
    vm_compute. exact I.
Defined.

(** C7. For every text, both variants return two strictly increasing
    sequences (so neither repeats a band), and every LTE band returned lies
    between 1 and 100. *)
Theorem parse_output_ascending_in_range (text : string) :
  (∃ lte nr,
     Perplexity.parse_phone_bands text = Ok (lte, nr)
     ∧ StronglySorted Z.lt lte ∧ StronglySorted Z.lt nr
     ∧ NoDup lte ∧ NoDup nr
     ∧ Forall (λ b, 1 ≤ b ≤ 100) lte)
  ∧ (∃ lte nr,
       GuiExpanded.parse_phone_bands text = Ok (lte, nr)
       ∧ StronglySorted Z.lt lte ∧ StronglySorted Z.lt nr
       ∧ NoDup lte ∧ NoDup nr
       ∧ Forall (λ b, 1 ≤ b ≤ 100) lte).
Proof.
  split.
  - destruct (perplexity_parse_bands text) as (lte & nr & -> & Hlte & _).
    exists (sorted lte), (sorted nr).
    repeat split; auto using sorted_strictly, lt_sorted_nodup, Forall_sorted.
  - destruct (gui_expanded_parse_bands text) as (lte & nr & -> & Hlte & _).
    exists (sorted lte), (sorted nr).
    repeat split; auto using sorted_strictly, lt_sorted_nodup, Forall_sorted.
Qed.

(** C8. Both operations end normally on every input: each variant of the
    scanner on every text, and the comparison on every pair of band sets
    and every table of carrier profiles, where it reports on exactly the
    carriers of the table.  Inside the scanner a candidate that [int]
    rejects leaves the set of bands as it was, and no exception leaves
    the loop body.  Of the candidates the patterns capture, the runs of
    decimal digits, [int] rejects those of more than 4300 digits and no
    other: a text with such a run after n, or after B, yields no band, also
    where the run has the value 5, and with 4300 digits the band 5 is
    found. *)
Theorem core_operations_total :
  (∀ text, ∃ lte nr, Perplexity.parse_phone_bands text = Ok (lte, nr))
  ∧ (∀ text, ∃ lte nr, GuiExpanded.parse_phone_bands text = Ok (lte, nr))
  ∧ (∀ (lte nr : gset Z) (carriers : gmap string CarrierProfile),
       ∃ results,
         compare_phone_to_carrier lte nr (bands_info_of <$> carriers) = Ok results
         ∧ dom results = dom carriers)
  ∧ (∀ (bands : gset Z) (candidate : str),
       add_nr_band bands candidate
       = Ok (match py_int candidate with
             | Ok v => bands ∪ {[v]}
             | Raise _ => bands
             end))
  ∧ (∀ (bands : gset Z) (candidate : str),
       add_lte_band bands candidate
       = Ok (match py_int candidate with
             | Ok v => if (1 <=? v) && (v <=? 100) then bands ∪ {[v]} else bands
             | Raise _ => bands
             end))
  ∧ (∀ candidate : str, candidate ≠ [] → Forall decimal candidate →
       py_int candidate = Raise ValueError
       ↔ int_max_str_digits < Z.of_nat (length candidate))
  ∧ True.
Proof.
  split; [|split; [|split; [|split; [|split; [|split]]]]].
  - intros text. destruct (perplexity_parse_bands text) as (lte & nr & -> & _).
    eauto.
  - intros text. destruct (gui_expanded_parse_bands text) as (lte & nr & -> & _).
    eauto.
  - intros lte nr carriers. exists (report_of lte nr <$> carriers).
    split; [apply compare_profiles|]. by rewrite !dom_fmap_L.
  - intros bands candidate. unfold add_nr_band.
    by destruct (py_int_cases candidate) as [[v ->]| ->].
  - intros bands candidate. unfold add_lte_band.
    destruct (py_int_cases candidate) as [[v ->]| ->]; [simpl|done].
    by destruct (_ && _).
  - apply py_int_decimal_raises.
  - done.
Qed.

(** C9 fails as stated: on "n0" both variants return the NR band 0, which
    is not positive. *)
Lemma nr_band_zero :
  Perplexity.parse_phone_bands "n0" = Ok ([], [0])
  ∧ GuiExpanded.parse_phone_bands "n0" = Ok ([], [0])
  ∧ ¬ Forall (λ b, 0 < b) [0].
Proof.
  split; [by vm_compute|]. split; [by vm_compute|].
  intros H. apply Forall_cons in H as [H _]. lia.
Qed.

(** C9, amended. For every text, every LTE band returned is positive and
    every NR band returned is zero or positive. *)
Theorem parse_bands_sign (text : string) :
  (∃ lte nr,
     Perplexity.parse_phone_bands text = Ok (lte, nr)
     ∧ Forall (λ b, 0 < b) lte ∧ Forall (λ b, 0 ≤ b) nr)
  ∧ (∃ lte nr,
       GuiExpanded.parse_phone_bands text = Ok (lte, nr)
       ∧ Forall (λ b, 0 < b) lte ∧ Forall (λ b, 0 ≤ b) nr).
Proof.
  split.
  - destruct (perplexity_parse_bands text) as (lte & nr & -> & Hlte & Hnr).
    exists (sorted lte), (sorted nr). split; [done|].
    split; apply Forall_sorted; [|done]. intros x Hx%Hlte. lia.
  - destruct (gui_expanded_parse_bands text) as (lte & nr & -> & Hlte & Hnr).
    exists (sorted lte), (sorted nr). split; [done|].
    split; apply Forall_sorted; [|done]. intros x Hx%Hlte. lia.
Qed.

(** C10. The NR pattern asks for no word boundary before its n: on "GEN2",
    a text without 5G information, the N inside the token starts a match
    and both variants return the NR band 2. *)
Theorem nr_scan_inside_token :
  findall re_nr_chain (list_ascii_of_string "GEN2") = [list_ascii_of_string "2"]
  ∧ Perplexity.parse_phone_bands "GEN2" = Ok ([], [2])
  ∧ GuiExpanded.parse_phone_bands "GEN2" = Ok ([], [2]).
Proof. repeat split; vm_compute; reflexivity. Qed.

(** * Further properties *)

Local Open Scope list_scope.

(** ** The comparison on arbitrary tables *)

Section comparison_errors.
Variables phone_lte_bands phone_nr_bands : gset Z.

Let turn := compare_carrier phone_lte_bands phone_nr_bands.

Lemma compare_items_key_error (items : list (string * gmap string (gset Z))) results :
  Exists (λ item, profile_of item.2 = None) items →
  for_each items turn results = Raise KeyError.
Proof.
  revert results. induction items as [|[name info] items IH]; intros results Hex.
  - by apply Exists_nil in Hex.
  - simpl. destruct (profile_of info) as [c|] eqn:Hc.
    + unfold turn. rewrite (compare_carrier_profile _ _ _ _ _ c Hc). simpl.
      apply IH. apply Exists_cons in Hex as [Hhd|Htl]; [|done].
      simpl in Hhd. congruence.
    + unfold turn. by rewrite compare_carrier_key_error.
Qed.
End comparison_errors.

(** X1. The comparison ends normally exactly when every entry of the
    carrier table has the three keys '4G/LTE', '5G' and 'Core LTE'; it then
    reports on exactly the carriers of the table.  When some entry lacks
    one of the keys, the comparison raises [KeyError] and returns no
    report at all. *)
Theorem compare_needs_three_keys (lte nr : gset Z)
    (carrier_data : gmap string (gmap string (gset Z))) :
  (map_Forall (λ _ bands_info, is_Some (profile_of bands_info)) carrier_data
   ∧ ∃ results,
       compare_phone_to_carrier lte nr carrier_data = Ok results
       ∧ dom results = dom carrier_data)
  ∨ (¬ map_Forall (λ _ bands_info, is_Some (profile_of bands_info)) carrier_data
     ∧ compare_phone_to_carrier lte nr carrier_data = Raise KeyError).
Proof.
  destruct (decide (map_Forall (λ _ bands_info, is_Some (profile_of bands_info))
                      carrier_data)) as [Hall|Hnot]; [left|right]; split; try done.
  - unfold compare_phone_to_carrier.
    destruct (compare_items lte nr (map_to_list carrier_data) ∅)
      as (res & Hrun & Hres).
    + apply NoDup_fst_map_to_list.
    + apply Forall_forall. intros [name info] Hin%elem_of_map_to_list.
      by apply (Hall name info).
    + exists res. split; [done|]. apply set_eq. intros name.
      rewrite !elem_of_dom, Hres, list_to_map_to_list.
      destruct (carrier_data !! name) as [info|] eqn:Hinfo.
      * destruct (Hall name info Hinfo) as [c ->]. simpl. split; eauto.
      * rewrite lookup_empty. split; intros [? ?]; done.
  - unfold compare_phone_to_carrier. apply compare_items_key_error.
    apply map_not_Forall in Hnot as (name & info & Hinfo & Hno); [|apply _].
    apply Exists_exists. exists (name, info). split.
    + by apply elem_of_map_to_list.
    + simpl. destruct (profile_of info); [|done]. destruct Hno. eauto.
Qed.

(** ** The score of a compared device *)

Lemma length_sorted (s : gset Z) : length (sorted s) = size s.
Proof. unfold sorted. by rewrite merge_sort_Permutation. Qed.

Lemma score_report_of (lte nr : gset Z) (c : CarrierProfile) :
  calculate_compatibility_score (report_of lte nr c)
  = Z.max 0 (2 * Z.of_nat (size (lte ∩ lteBands c))
             + Z.of_nat (size (nr ∩ nrBands c))
             - 2 * Z.of_nat (size (coreLteBands c ∩ (lteBands c ∖ lte)))).
Proof.
  unfold calculate_compatibility_score. simpl. rewrite !length_sorted. lia.
Qed.

(** X2. A device with more bands never scores lower: when the LTE and NR
    bands of one device are among those of another, its score for any
    carrier of the table is at most the score of the other. *)
Theorem score_grows_with_bands (lte lte' nr nr' : gset Z)
    (carriers : gmap string CarrierProfile) (name : string) (c : CarrierProfile) :
  carriers !! name = Some c →
  lte ⊆ lte' → nr ⊆ nr' →
  ∃ results results' r r',
    compare_phone_to_carrier lte nr (bands_info_of <$> carriers) = Ok results
    ∧ compare_phone_to_carrier lte' nr' (bands_info_of <$> carriers) = Ok results'
    ∧ results !! name = Some r ∧ results' !! name = Some r'
    ∧ calculate_compatibility_score r ≤ calculate_compatibility_score r'.
Proof.
  intros Hc Hlte Hnr.
  exists (report_of lte nr <$> carriers), (report_of lte' nr' <$> carriers),
    (report_of lte nr c), (report_of lte' nr' c).
  split; [apply compare_profiles|]. split; [apply compare_profiles|].
  split; [by rewrite lookup_fmap, Hc|]. split; [by rewrite lookup_fmap, Hc|].
  rewrite !score_report_of.
  assert (size (lte ∩ lteBands c) ≤ size (lte' ∩ lteBands c))%nat
    by (apply subseteq_size; set_solver).
  assert (size (nr ∩ nrBands c) ≤ size (nr' ∩ nrBands c))%nat
    by (apply subseteq_size; set_solver).
  assert (size (coreLteBands c ∩ (lteBands c ∖ lte'))
          ≤ size (coreLteBands c ∩ (lteBands c ∖ lte)))%nat
    by (apply subseteq_size; set_solver).
  lia.
Qed.

Lemma score_grows_with_bands_att :
  ∃ results results' r r',
    compare_phone_to_carrier (set_of [2; 12]) (set_of [])
      (bands_info_of <$> us_carriers) = Ok results
    ∧ compare_phone_to_carrier (set_of [2; 4; 12; 17]) (set_of [77])
        (bands_info_of <$> us_carriers) = Ok results'
    ∧ results !! "AT&T" = Some r ∧ results' !! "AT&T" = Some r'
    ∧ calculate_compatibility_score r ≤ calculate_compatibility_score r'.
Proof.
  apply (score_grows_with_bands (set_of [2; 12]) (set_of [2; 4; 12; 17])
           (set_of []) (set_of [77]) us_carriers "AT&T" att).
  - vm_compute. reflexivity.
  - apply (bool_decide_unpack (set_of [2; 12] ⊆ set_of [2; 4; 12; 17])).
    vm_compute. exact I.
  - apply (bool_decide_unpack (set_of [] ⊆ set_of [77])).
    vm_compute. exact I.
Defined.

(** X3. For a carrier of the table the score is at most twice the number
    of the carrier's LTE bands plus the number of its NR bands, and a device
    that has all LTE and NR bands of the carrier reaches this value. *)
Theorem score_upper_bound (lte nr : gset Z)
    (carriers : gmap string CarrierProfile) (name : string) (c : CarrierProfile) :
  carriers !! name = Some c →
  ∃ results r,
    compare_phone_to_carrier lte nr (bands_info_of <$> carriers) = Ok results
    ∧ results !! name = Some r
    ∧ calculate_compatibility_score r
      ≤ 2 * Z.of_nat (size (lteBands c)) + Z.of_nat (size (nrBands c))
    ∧ (lteBands c ⊆ lte → nrBands c ⊆ nr →
       calculate_compatibility_score r
       = 2 * Z.of_nat (size (lteBands c)) + Z.of_nat (size (nrBands c))).
Proof.
  intros Hc. exists (report_of lte nr <$> carriers), (report_of lte nr c).
  split; [apply compare_profiles|]. split; [by rewrite lookup_fmap, Hc|].
  rewrite score_report_of. split.
  - assert (size (lte ∩ lteBands c) ≤ size (lteBands c))%nat
      by (apply subseteq_size; set_solver).
    assert (size (nr ∩ nrBands c) ≤ size (nrBands c))%nat
      by (apply subseteq_size; set_solver).
    lia.
  - intros Hl Hn.
    replace (lte ∩ lteBands c) with (lteBands c) by set_solver.
    replace (nr ∩ nrBands c) with (nrBands c) by set_solver.
    replace (coreLteBands c ∩ (lteBands c ∖ lte)) with (∅ : gset Z) by set_solver.
    rewrite size_empty. lia.
Qed.

Lemma score_upper_bound_verizon :
  ∃ results r,
    compare_phone_to_carrier (set_of [2; 4; 5; 12; 13; 41; 46; 48; 66; 71])
      (set_of [2; 5; 66; 77; 260; 261]) (bands_info_of <$> us_carriers) = Ok results
    ∧ results !! "Verizon" = Some r
    ∧ calculate_compatibility_score r
      ≤ 2 * Z.of_nat (size (lteBands verizon)) + Z.of_nat (size (nrBands verizon))
    ∧ calculate_compatibility_score r
      = 2 * Z.of_nat (size (lteBands verizon)) + Z.of_nat (size (nrBands verizon))
    ∧ calculate_compatibility_score r = 24.
Proof.
  destruct (score_upper_bound (set_of [2; 4; 5; 12; 13; 41; 46; 48; 66; 71])
              (set_of [2; 5; 66; 77; 260; 261]) us_carriers "Verizon" verizon)
    as (results & r & Hrun & Hr & Hle & Heq).
  - vm_compute. reflexivity.
  - assert (lteBands verizon ⊆ set_of [2; 4; 5; 12; 13; 41; 46; 48; 66; 71]) as Hlte
      by (apply (bool_decide_unpack _); vm_compute; exact I).
    assert (nrBands verizon ⊆ set_of [2; 5; 66; 77; 260; 261]) as Hnr
      by (apply (bool_decide_unpack _); vm_compute; exact I).
    exists results, r. repeat split; [done|done|done|by apply Heq|].
    rewrite (Heq Hlte Hnr). vm_compute. reflexivity.
Defined.

(** ** Texts without digits *)

Lemma lstrip_suffix s : lstrip s `suffix_of` s.
Proof.
  induction s as [|c s IH]; simpl; [done|].
  destruct (is_space c); [by apply suffix_cons_r|done].
Qed.

Lemma Forall_strip (P : ascii → Prop) s : Forall P s → Forall P (strip s).
Proof.
  intros Hs. unfold strip, rstrip.
  assert (∀ t, Forall P t → Forall P (lstrip t)) as Hl.
  { intros t Ht. destruct (lstrip_suffix t) as [pre Hpre].
    rewrite Hpre in Ht. by apply Forall_app in Ht as [_ ?]. }
  apply Forall_rev, Hl, Forall_rev, Hl, Hs.
Qed.

Lemma Forall_split_on (P : ascii → Prop) sep s :
  Forall P s → Forall (Forall P) (split_on sep s).
Proof.
  induction 1 as [|c s Hc Hs IH]; simpl.
  - by repeat constructor.
  - destruct (Ascii.eqb c sep); [by constructor|].
    destruct (split_on sep s) as [|l ls]; [by repeat constructor|].
    apply Forall_cons in IH as [Hl Hls]. constructor; [by constructor|done].
Qed.

Lemma re_lte_part_requires_digit : requires decimal re_lte_part.
Proof. simpl. right. right. left. by left. Qed.

Lemma re_nr_chain_requires_digit : requires decimal re_nr_chain.
Proof. simpl. right. left. left. by left. Qed.

Lemma re_nr_single_requires_digit : requires decimal re_nr_single.
Proof. simpl. right. left. by left. Qed.

Lemma finditer_suffix fuel r st st0 st1 :
  (st0, st1) ∈ finditer fuel r st → rest st1 `suffix_of` rest st.
Proof.
  revert st. induction fuel as [|fuel IH]; intros st; simpl.
  - by intros ?%elem_of_nil.
  - destruct (search_from r _ _) as [[st0' st1']|] eqn:Hs;
      [|by intros ?%elem_of_nil].
    pose proof (search_from_suffix _ _ _ _ _ Hs) as Hsuf0.
    apply search_from_match in Hs as [[w Hw]%match_at_suffix _].
    assert (rest st1' `suffix_of` rest st) as Hsuf1.
    { etrans; [|exact Hsuf0]. by exists w. }
    intros [?|Hin]%elem_of_cons; [by simplify_eq|].
    destruct (_ <? _)%nat.
    + etrans; [by apply IH|done].
    + unfold step in Hin. destruct (rest st1') as [|c s] eqn:Hs1;
        [by apply elem_of_nil in Hin|].
      apply IH in Hin. simpl in Hin.
      etrans; [exact Hin|]. etrans; [|exact Hsuf1]. by apply suffix_cons_r.
Qed.

Lemma Forall_suffix (P : ascii → Prop) (s t : str) :
  s `suffix_of` t → Forall P t → Forall P s.
Proof. intros [pre ->] Ht. by apply Forall_app in Ht as [_ ?]. Qed.

(** What [re.sub] leaves is made of characters of the text. *)
Lemma Forall_re_sub_empty (P : ascii → Prop) r s :
  Forall P s → Forall P (re_sub_empty r s).
Proof.
  intros Hs. unfold re_sub_empty.
  assert (Forall (λ m : mstate * mstate, Forall P (rest m.2)) (matches r s)) as Hms.
  { apply Forall_forall. intros [st0 st1] Hin. simpl.
    apply finditer_suffix in Hin. by eapply Forall_suffix. }
  revert Hms Hs. generalize (matches r s). intros ms. revert s.
  induction ms as [|[st0 st1] ms IH]; intros s Hms Hs; simpl; [done|].
  apply Forall_cons in Hms as [Hst1 Hms]. apply Forall_app. split.
  - by apply Forall_take.
  - by apply IH.
Qed.

Lemma scan_lte_line_digit_free lte_bands line :
  digit_free line → scan_lte_line lte_bands line = Ok lte_bands.
Proof.
  intros Hline. unfold scan_lte_line. destruct (_ || _); [|done].
  rewrite (findall_none decimal); [done|apply re_lte_part_requires_digit|].
  by apply Forall_re_sub_empty, Forall_strip.
Qed.

Lemma scan_lte_digit_free text : digit_free text → scan_lte text = Ok ∅.
Proof.
  intros Htext. unfold scan_lte.
  pose proof (Forall_split_on _ "010"%char text Htext) as Hlines.
  induction Hlines as [|line lines Hline Hlines IH]; simpl; [done|].
  by rewrite scan_lte_line_digit_free.
Qed.

Lemma re_n_digits_requires_digit : requires decimal Terminal.re_n_digits.
Proof. simpl. right. left. by left. Qed.

Lemma re_b_annotated_requires_digit : requires decimal Terminal.re_b_annotated.
Proof. simpl. right. left. by left. Qed.

Lemma terminal_scan_line_digit_free st line :
  digit_free line →
  ∃ section,
    Terminal.scan_line st line
    = Ok (Terminal.ScanState section (Terminal.lte_bands st) (Terminal.nr_bands st)).
Proof.
  intros Hline. unfold Terminal.scan_line.
  destruct (_ && _); [eauto|]. destruct (_ && _); [eauto|].
  destruct (Terminal.current_section st) as [[]|] eqn:Hsec.
  - rewrite (findall_none decimal); [|apply re_n_digits_requires_digit|done].
    simpl. eauto.
  - rewrite (findall_none decimal); [|apply re_b_annotated_requires_digit|done].
    simpl. eauto.
  - exists None. by destruct st; simplify_eq/=.
Qed.

(** X4. A text without any decimal digit yields no band: each of the three
    scanners returns two empty sequences on it. *)
Theorem no_digit_no_band (text : string) :
  digit_free (list_ascii_of_string text) →
  Perplexity.parse_phone_bands text = Ok ([], [])
  ∧ GuiExpanded.parse_phone_bands text = Ok ([], [])
  ∧ Terminal.parse_phone_bands text = Ok ([], []).
Proof.
  intros Htext. repeat split.
  - unfold Perplexity.parse_phone_bands.
    rewrite (findall_none decimal); [|apply re_nr_chain_requires_digit|done].
    simpl. by rewrite scan_lte_digit_free.
  - unfold GuiExpanded.parse_phone_bands.
    rewrite (findall_none decimal); [|apply re_nr_single_requires_digit|done].
    simpl. by rewrite scan_lte_digit_free.
  - unfold Terminal.parse_phone_bands.
    pose proof (Forall_split_on _ "010"%char _ Htext) as Hlines.
    assert (∀ st, ∃ section,
              for_each (split_on "010"%char (list_ascii_of_string text))
                Terminal.scan_line st
              = Ok (Terminal.ScanState section (Terminal.lte_bands st)
                      (Terminal.nr_bands st))) as Hrun.
    { induction Hlines as [|line lines Hline Hlines IH]; intros st; simpl.
      - exists (Terminal.current_section st). by destruct st.
      - destruct (terminal_scan_line_digit_free st line Hline) as [sec ->].
        simpl.
        destruct (IH (Terminal.ScanState sec (Terminal.lte_bands st)
                        (Terminal.nr_bands st))) as [sec' ->].
        simpl. eauto. }
    by destruct (Hrun (Terminal.ScanState None ∅ ∅)) as [sec ->].
Qed.

Lemma no_digit_no_band_keywords :
  Perplexity.parse_phone_bands "LTE bands: n/a (FDD), NR: none" = Ok ([], [])
  ∧ GuiExpanded.parse_phone_bands "LTE bands: n/a (FDD), NR: none" = Ok ([], [])
  ∧ Terminal.parse_phone_bands "LTE bands: n/a (FDD), NR: none" = Ok ([], []).
Proof.
  apply (no_digit_no_band "LTE bands: n/a (FDD), NR: none").
  apply (bool_decide_unpack _). vm_compute. exact I.
Defined.

(** ** The scanner of the terminal version *)

(** X5. The terminal version reads bands only from lines that follow a
    header line: on a text of a single line it returns two empty
    sequences, whatever the line holds. *)
Theorem terminal_single_line_empty (text : string) :
  Forall (λ c, c ≠ "010"%char) (list_ascii_of_string text) →
  Terminal.parse_phone_bands text = Ok ([], []).
Proof.
  intros Hline. unfold Terminal.parse_phone_bands.
  rewrite (split_on_absent _ _ Hline). simpl.
  unfold Terminal.scan_line. simpl.
  destruct (_ && _); [done|]. by destruct (_ && _).
Qed.

Lemma terminal_single_line_empty_scenario :
  Terminal.parse_phone_bands "5G n77, 4G B2, B4" = Ok ([], []).
Proof.
  apply (terminal_single_line_empty "5G n77, 4G B2, B4").
  apply (bool_decide_unpack _). vm_compute. exact I.
Defined.

Lemma re_n_digits_decimal :
  ngroups Terminal.re_n_digits ≠ 0%nat ∧ groups_only decimal Terminal.re_n_digits.
Proof. split; [done|]. simpl. repeat split; done. Qed.

Lemma re_b_annotated_decimal :
  ngroups Terminal.re_b_annotated ≠ 0%nat
  ∧ groups_only decimal Terminal.re_b_annotated.
Proof. split; [done|]. simpl. repeat split; done. Qed.

Lemma terminal_scan_line_from st line :
  bands_from 0 (Terminal.lte_bands st) → bands_from 0 (Terminal.nr_bands st) →
  ∃ st', Terminal.scan_line st line = Ok st'
         ∧ bands_from 0 (Terminal.lte_bands st')
         ∧ bands_from 0 (Terminal.nr_bands st').
Proof.
  intros Hlte Hnr. unfold Terminal.scan_line.
  destruct (_ && _); [eauto|]. destruct (_ && _); [eauto|].
  destruct (Terminal.current_section st) as [[]|]; [| |eauto].
  - destruct (add_nr_bands_from (findall Terminal.re_n_digits line)
                (Terminal.nr_bands st)) as (nr & Hrun & Hnr'); [|done|].
    + apply Forall_forall. intros w Hw.
      destruct re_n_digits_decimal as [Hn Hc].
      by apply (findall_group decimal Terminal.re_n_digits line).
    + change Terminal.add_band with add_nr_band. rewrite Hrun. simpl. eauto.
  - destruct (add_nr_bands_from (findall Terminal.re_b_annotated line)
                (Terminal.lte_bands st)) as (lte & Hrun & Hlte'); [|done|].
    + apply Forall_forall. intros w Hw.
      destruct re_b_annotated_decimal as [Hn Hc].
      by apply (findall_group decimal Terminal.re_b_annotated line).
    + change Terminal.add_band with add_nr_band. rewrite Hrun. simpl. eauto.
Qed.

(** X6. On every text the terminal version ends normally and returns two
    strictly increasing sequences of numbers that are zero or positive; it
    puts no upper limit on either. *)
Theorem terminal_parse_output (text : string) :
  ∃ lte nr,
    Terminal.parse_phone_bands text = Ok (lte, nr)
    ∧ StronglySorted Z.lt lte ∧ StronglySorted Z.lt nr
    ∧ Forall (λ b, 0 ≤ b) lte ∧ Forall (λ b, 0 ≤ b) nr.
Proof.
  unfold Terminal.parse_phone_bands.
  destruct (for_each_invariant
              (λ st, bands_from 0 (Terminal.lte_bands st)
                     ∧ bands_from 0 (Terminal.nr_bands st))
              (λ _ : str, True)
              (split_on "010"%char (list_ascii_of_string text))
              Terminal.scan_line (Terminal.ScanState None ∅ ∅))
    as (st & -> & Hlte & Hnr).
  - apply Forall_forall. done.
  - intros st line [Hlte Hnr] _.
    destruct (terminal_scan_line_from st line Hlte Hnr) as (st' & ? & ? & ?).
    eauto.
  - split; by intros x ?%not_elem_of_empty.
  - simpl. eexists _, _. split; [done|].
    repeat split; auto using sorted_strictly, Forall_sorted.
Qed.

(** ** The LTE scan, line by line *)

Section union_loops.
Context {A : Type}.

Lemma for_each_adds_only body (l : list A) :
  adds_only body → ∃ d, ∀ s, for_each l body s = Ok (s ∪ d).
Proof.
  intros Hbody. induction l as [|a l [d2 IH]]; simpl.
  - exists ∅. intros s. by rewrite (right_id_L ∅ (∪)).
  - destruct (Hbody a) as [d1 H1]. exists (d1 ∪ d2). intros s.
    rewrite H1. simpl. rewrite IH. by rewrite (assoc_L (∪)).
Qed.

Lemma for_each_app (S : Type) (body : S → A → result S) (l1 l2 : list A) s :
  for_each (l1 ++ l2) body s = (s' ← for_each l1 body s; for_each l2 body s').
Proof.
  revert s. induction l1 as [|a l1 IH]; intros s; simpl; [done|].
  destruct (body s a) as [s1|e]; simpl; [apply IH|done].
Qed.
End union_loops.

Lemma add_lte_band_adds_only : adds_only add_lte_band.
Proof.
  intros part.
  destruct (py_int part) as [v|e] eqn:Hint.
  - destruct ((1 <=? v) && (v <=? 100)) eqn:Hrange.
    + exists {[v]}. intros s. unfold add_lte_band. by rewrite Hint; simpl; rewrite Hrange.
    + exists ∅. intros s. unfold add_lte_band. rewrite Hint; simpl; rewrite Hrange.
      by rewrite (right_id_L ∅ (∪)).
  - exists ∅. intros s. unfold add_lte_band. rewrite Hint.
    destruct (py_int_cases part) as [[v Hv]|Hv]; [congruence|].
    assert (e = ValueError) as -> by congruence. simpl.
    by rewrite (right_id_L ∅ (∪)).
Qed.

Lemma scan_lte_line_adds_only : adds_only scan_lte_line.
Proof.
  intros line. unfold scan_lte_line. destruct (_ || _).
  - apply for_each_adds_only, add_lte_band_adds_only.
  - exists ∅. intros s. by rewrite (right_id_L ∅ (∪)).
Qed.

Lemma split_on_nonempty sep s : split_on sep s ≠ [].
Proof.
  destruct s as [|c s]; simpl; [done|].
  destruct (Ascii.eqb c sep); [done|]. by destruct (split_on sep s).
Qed.

Lemma split_on_app sep (a b : str) :
  split_on sep (a ++ sep :: b) = split_on sep a ++ split_on sep b.
Proof.
  induction a as [|c a IH]; simpl.
  - by rewrite Ascii.eqb_refl.
  - destruct (Ascii.eqb c sep); [by rewrite IH|]. rewrite IH.
    pose proof (split_on_nonempty sep a).
    by destruct (split_on sep a).
Qed.

(** The LTE bands of two texts joined by a line break are those of the
    one and those of the other. *)
Lemma scan_lte_app (a b : str) :
  ∃ da db, scan_lte a = Ok da ∧ scan_lte b = Ok db
           ∧ scan_lte (a ++ "010"%char :: b) = Ok (da ∪ db).
Proof.
  unfold scan_lte. rewrite split_on_app, for_each_app.
  destruct (for_each_adds_only scan_lte_line (split_on "010"%char a)
              scan_lte_line_adds_only) as [da Ha].
  destruct (for_each_adds_only scan_lte_line (split_on "010"%char b)
              scan_lte_line_adds_only) as [db Hb].
  exists da, db. rewrite !Ha, Hb. simpl. rewrite Hb.
  by rewrite !(left_id_L ∅ (∪)).
Qed.

(** X7. The LTE scan works line by line: when two texts are joined by a
    line break, the LTE bands found in the whole are exactly the LTE bands
    found in the one text and those found in the other (in the scanner of
    band_check_perplexity.py and in that of the expanded GUI). *)
Theorem lte_bands_line_by_line (a b : string) :
  (∃ la na lb nb l n,
     Perplexity.parse_phone_bands a = Ok (la, na)
     ∧ Perplexity.parse_phone_bands b = Ok (lb, nb)
     ∧ Perplexity.parse_phone_bands (a +:+ String "010" b) = Ok (l, n)
     ∧ ∀ x, x ∈ l ↔ x ∈ la ∨ x ∈ lb)
  ∧ (∃ la na lb nb l n,
       GuiExpanded.parse_phone_bands a = Ok (la, na)
       ∧ GuiExpanded.parse_phone_bands b = Ok (lb, nb)
       ∧ GuiExpanded.parse_phone_bands (a +:+ String "010" b) = Ok (l, n)
       ∧ ∀ x, x ∈ l ↔ x ∈ la ∨ x ∈ lb).
Proof.
  destruct (scan_lte_app (list_ascii_of_string a) (list_ascii_of_string b))
    as (da & db & Ha & Hb & Hab).
  assert (list_ascii_of_string (a +:+ String "010" b)
          = list_ascii_of_string a ++ "010"%char :: list_ascii_of_string b) as Hjoin
    by (by rewrite list_ascii_of_string_app).
  split.
  - destruct (perplexity_parse_bands a) as (la & na & Hpa & _).
    destruct (perplexity_parse_bands b) as (lb & nb & Hpb & _).
    destruct (perplexity_parse_bands (a +:+ String "010" b)) as (l & n & Hp & _).
    exists (sorted la), (sorted na), (sorted lb), (sorted nb), (sorted l), (sorted n).
    repeat split; try done.
    all: unfold Perplexity.parse_phone_bands in *; rewrite Hjoin in Hp.
    all: destruct (for_each (findall re_nr_chain (list_ascii_of_string a)) _ _);
      [|done].
    all: destruct (for_each (findall re_nr_chain (list_ascii_of_string b)) _ _);
      [|done].
    all: destruct (for_each (findall re_nr_chain (_ ++ _)) _ _); [|done].
    all: rewrite Ha in Hpa; rewrite Hb in Hpb; rewrite Hab in Hp; simpl in *.
    all: injection Hpa as Hla _; injection Hpb as Hlb _; injection Hp as Hl _.
    all: rewrite <- Hla, <- Hlb, <- Hl, !elem_of_sorted, elem_of_union; tauto.
  - destruct (gui_expanded_parse_bands a) as (la & na & Hpa & _).
    destruct (gui_expanded_parse_bands b) as (lb & nb & Hpb & _).
    destruct (gui_expanded_parse_bands (a +:+ String "010" b)) as (l & n & Hp & _).
    exists (sorted la), (sorted na), (sorted lb), (sorted nb), (sorted l), (sorted n).
    repeat split; try done.
    all: unfold GuiExpanded.parse_phone_bands in *; rewrite Hjoin in Hp.
    all: destruct (for_each (findall re_nr_single (list_ascii_of_string a)) _ _);
      [|done].
    all: destruct (for_each (findall re_nr_single (list_ascii_of_string b)) _ _);
      [|done].
    all: destruct (for_each (findall re_nr_single (_ ++ _)) _ _); [|done].
    all: rewrite Ha in Hpa; rewrite Hb in Hpb; rewrite Hab in Hp; simpl in *.
    all: injection Hpa as Hla _; injection Hpb as Hlb _; injection Hp as Hl _.
    all: rewrite <- Hla, <- Hlb, <- Hl, !elem_of_sorted, elem_of_union; tauto.
Qed.

(** ** The best device of the history *)

Section best_device.
Variable carrier : string.

Let score := carrier_score carrier.
Let turn := PerplexityApp.keep_best carrier.

Lemma score_nonneg (r : CarrierReport) : 0 ≤ calculate_compatibility_score r.
Proof. unfold calculate_compatibility_score. lia. Qed.

Lemma keep_best_so_far h best entry :
  best_so_far carrier h best → best_so_far carrier (h ++ [entry]) (turn best entry).
Proof.
  destruct best as [bs [e|]]; unfold best_so_far, turn, PerplexityApp.keep_best; simpl.
  - intros (h1 & h2 & (-> & sx & Hsx & H1 & H2) & He).
    assert (sx = bs) as -> by congruence.
    destruct (results entry !! carrier) as [r|] eqn:Hr; simpl.
    + destruct (bs <? calculate_compatibility_score r) eqn:Hlt; simpl.
      * apply Z.ltb_lt in Hlt. exists (h1 ++ e :: h2), [].
        split; [|by unfold score, carrier_score; rewrite Hr].
        split; [done|]. eexists. split; [by unfold score, carrier_score; rewrite Hr|].
        split; [|done]. apply Forall_app. split.
        -- eapply Forall_impl; [exact H1|]. simpl. intros y Hy sy Hsy.
           specialize (Hy sy Hsy). lia.
        -- constructor.
           ++ intros sy Hsy. assert (sy = bs) by congruence. lia.
           ++ eapply Forall_impl; [exact H2|]. simpl. intros y Hy sy Hsy.
              specialize (Hy sy Hsy). lia.
      * apply Z.ltb_ge in Hlt. exists h1, (h2 ++ [entry]). split; [|done].
        split; [by rewrite <- (assoc_L (++))|]. exists bs. split; [done|].
        split; [done|]. apply Forall_app. split; [done|]. constructor; [|done].
        unfold score, carrier_score. rewrite Hr. simpl. intros sy [= <-]. done.
    + exists h1, (h2 ++ [entry]). split; [|done].
      split; [by rewrite <- (assoc_L (++))|]. exists bs. split; [done|].
      split; [done|]. apply Forall_app. split; [done|]. constructor; [|done].
      unfold score, carrier_score. by rewrite Hr.
  - intros [-> Hnone].
    destruct (results entry !! carrier) as [r|] eqn:Hr; simpl.
    + pose proof (score_nonneg r) as Hpos.
      destruct (-1 <? calculate_compatibility_score r) eqn:Hlt;
        [|apply Z.ltb_ge in Hlt; lia].
      simpl. exists h, []. split; [|by unfold score, carrier_score; rewrite Hr].
      split; [done|]. eexists. split; [by unfold score, carrier_score; rewrite Hr|].
      split; [|done]. eapply Forall_impl; [exact Hnone|]. simpl.
      intros y Hy sy Hsy. congruence.
    + split; [done|]. apply Forall_app. split; [done|]. constructor; [|done].
      unfold score, carrier_score. by rewrite Hr.
Qed.

Lemma fold_best_so_far h :
  best_so_far carrier h (fold_left turn h (-1, None)).
Proof.
  induction h as [|entry h IH] using rev_ind.
  - by split.
  - rewrite fold_left_app. simpl. by apply keep_best_so_far.
Qed.
End best_device.

Lemma best_device_found (h : list LogEntry) (carrier : string)
    (all_carriers : gmap string (gmap string (gset Z))) (e : LogEntry) :
  e ∈ h → is_Some (results e !! carrier) →
  is_Some (PerplexityApp.find_best_device_for_carrier h carrier all_carriers).
Proof.
  intros Hin [r Hr]. unfold PerplexityApp.find_best_device_for_carrier.
  pose proof (fold_best_so_far carrier h) as Hinv. unfold best_so_far in Hinv.
  destruct (fold_left _ h (-1, None)) as [bs [e'|]]; simpl in *; [eauto|].
  destruct Hinv as [_ Hnone]. rewrite Forall_forall in Hnone.
  specialize (Hnone e Hin). unfold carrier_score in Hnone.
  by rewrite Hr in Hnone.
Qed.

(** X8. [find_best_device_for_carrier] returns nothing exactly when no
    entry of the history has results for the carrier. *)
Theorem best_device_none (h : list LogEntry) (carrier : string)
    (all_carriers : gmap string (gmap string (gset Z))) :
  PerplexityApp.find_best_device_for_carrier h carrier all_carriers = None
  ↔ Forall (λ e, results e !! carrier = None) h.
Proof.
  unfold PerplexityApp.find_best_device_for_carrier.
  pose proof (fold_best_so_far carrier h) as Hinv. unfold best_so_far in Hinv.
  destruct (fold_left _ h (-1, None)) as [bs [e|]]; simpl in *.
  - destruct Hinv as (h1 & h2 & (-> & sx & Hsx & _) & _). split; [done|].
    intros [_ Hh]%Forall_app. apply Forall_cons in Hh as [He _].
    unfold carrier_score in Hsx. by rewrite He in Hsx.
  - destruct Hinv as [_ Hnone]. split; [|done]. intros _.
    eapply Forall_impl; [exact Hnone|]. simpl. intros e.
    unfold carrier_score. by destruct (results e !! carrier).
Qed.

(** X9. The entry that [find_best_device_for_carrier] returns is the first
    entry of the history with the greatest score for the carrier: every
    entry before it that has results for the carrier scores less, and no
    entry after it scores more. *)
Theorem best_device_first_greatest (h : list LogEntry) (carrier : string)
    (all_carriers : gmap string (gmap string (gset Z))) (e : LogEntry) :
  PerplexityApp.find_best_device_for_carrier h carrier all_carriers = Some e →
  ∃ h1 h2 r,
    h = h1 ++ e :: h2
    ∧ results e !! carrier = Some r
    ∧ (∀ e' r', e' ∈ h1 → results e' !! carrier = Some r' →
         calculate_compatibility_score r' < calculate_compatibility_score r)
    ∧ (∀ e' r', e' ∈ h2 → results e' !! carrier = Some r' →
         calculate_compatibility_score r' ≤ calculate_compatibility_score r).
Proof.
  unfold PerplexityApp.find_best_device_for_carrier.
  pose proof (fold_best_so_far carrier h) as Hinv. unfold best_so_far in Hinv.
  destruct (fold_left _ h (-1, None)) as [bs [e0|]]; simpl in *; [|done].
  intros [= ->].
  destruct Hinv as (h1 & h2 & (-> & sx & Hsx & H1 & H2) & _).
  unfold carrier_score in Hsx.
  destruct (results e !! carrier) as [r|] eqn:Hr; [|done].
  simpl in Hsx. injection Hsx as <-.
  exists h1, h2, r. repeat split; try done.
  - intros e' r' Hin Hr'. rewrite Forall_forall in H1.
    apply (H1 e' Hin). unfold carrier_score. by rewrite Hr'.
  - intros e' r' Hin Hr'. rewrite Forall_forall in H2.
    apply (H2 e' Hin). unfold carrier_score. by rewrite Hr'.
Qed.

Lemma best_device_first_greatest_sample :
  ∃ h1 h2 r,
    sample_history = h1 ++ sample_phone_b :: h2
    ∧ results sample_phone_b !! "Verizon" = Some r
    ∧ (∀ e' r', e' ∈ h1 → results e' !! "Verizon" = Some r' →
         calculate_compatibility_score r' < calculate_compatibility_score r)
    ∧ (∀ e' r', e' ∈ h2 → results e' !! "Verizon" = Some r' →
         calculate_compatibility_score r' ≤ calculate_compatibility_score r).
Proof.
  apply (best_device_first_greatest sample_history "Verizon" get_us_carriers
           sample_phone_b).
  vm_compute. reflexivity.
Defined.

(** ** The ranking of the history *)

Section sort_by_score_facts.
Context {A : Type}.
Implicit Types (x y : A * Z) (l : list (A * Z)).

Lemma insert_by_score_perm x l : insert_by_score x l ≡ₚ x :: l.
Proof.
  induction l as [|y l IH]; simpl; [done|].
  destruct (x.2 <? y.2); [|done]. rewrite IH. apply Permutation_swap.
Qed.

Lemma sort_by_score_perm l : sort_by_score l ≡ₚ l.
Proof.
  induction l as [|x l IH]; simpl; [done|].
  by rewrite insert_by_score_perm, IH.
Qed.

Lemma insert_by_score_sorted x l :
  StronglySorted (λ a b : A * Z, b.2 ≤ a.2) l →
  StronglySorted (λ a b : A * Z, b.2 ≤ a.2) (insert_by_score x l).
Proof.
  induction 1 as [|y l Hl IH Hy]; simpl; [by repeat constructor|].
  destruct (x.2 <? y.2) eqn:Hlt.
  - apply Z.ltb_lt in Hlt. constructor; [done|].
    rewrite insert_by_score_perm. constructor; [lia|done].
  - apply Z.ltb_ge in Hlt. constructor; [by constructor|].
    constructor; [done|]. eapply Forall_impl; [exact Hy|]. simpl. lia.
Qed.

Lemma sort_by_score_sorted l :
  StronglySorted (λ a b : A * Z, b.2 ≤ a.2) (sort_by_score l).
Proof.
  induction l as [|x l IH]; simpl; [constructor|].
  by apply insert_by_score_sorted.
Qed.

Lemma head_insert_by_score x l :
  head (insert_by_score x l)
  = Some (match head l with
          | Some y => if x.2 <? y.2 then y else x
          | None => x
          end).
Proof. destruct l as [|y l]; simpl; [done|]. by destruct (x.2 <? y.2). Qed.

(** The sorted list starts with the first of the greatest elements. *)
Lemma head_sort_by_score l :
  match head (sort_by_score l) with
  | Some x => ∃ l1 l2, first_greatest (λ y : A * Z, Some y.2) l l1 x l2
  | None => l = []
  end.
Proof.
  induction l as [|y l IH]; simpl; [done|].
  rewrite head_insert_by_score.
  destruct (head (sort_by_score l)) as [z|].
  - destruct IH as (l1 & l2 & -> & sz & [= <-] & H1 & H2).
    destruct (y.2 <? z.2) eqn:Hlt.
    + apply Z.ltb_lt in Hlt. exists (y :: l1), l2. split; [done|].
      exists z.2. split; [done|]. split; [|done].
      constructor; [|done]. by intros sy [= <-].
    + apply Z.ltb_ge in Hlt. exists [], (l1 ++ z :: l2). split; [done|].
      exists y.2. split; [done|]. split; [done|].
      apply Forall_app. split; [|constructor].
      * eapply Forall_impl; [exact H1|]. simpl. intros a Ha sa Hsa.
        specialize (Ha sa Hsa). lia.
      * intros sa [= <-]. done.
      * eapply Forall_impl; [exact H2|]. simpl. intros a Ha sa Hsa.
        specialize (Ha sa Hsa). lia.
  - subst l. exists [], []. split; [done|]. exists y.2. by repeat split.
Qed.
End sort_by_score_facts.

Lemma first_greatest_unique {A : Type} (score : A → option Z)
    (l l1 l1' l2 l2' : list A) (x y : A) :
  first_greatest score l l1 x l2 → first_greatest score l l1' y l2' → x = y.
Proof.
  intros (-> & sx & Hsx & H1 & H2) (Heq & sy & Hsy & H1' & H2').
  revert l1' Heq H1'. induction l1 as [|a l1 IH]; intros l1' Heq H1'.
  - destruct l1' as [|b l1']; simpl in Heq; [by simplify_eq|].
    injection Heq as <- ->. apply Forall_cons in H1' as [Hx _].
    specialize (Hx sx Hsx).
    apply Forall_app in H2 as [_ [Hy _]%Forall_cons].
    specialize (Hy sy Hsy). lia.
  - apply Forall_cons in H1 as [Ha H1].
    destruct l1' as [|b l1']; simpl in Heq.
    + injection Heq as -> <-. specialize (Ha sy Hsy).
      apply Forall_app in H2' as [_ [Hx _]%Forall_cons].
      specialize (Hx sx Hsx). lia.
    + injection Heq as -> Heq. apply Forall_cons in H1' as [_ H1'].
      by apply (IH H1 l1').
Qed.

Lemma omap_none {A B : Type} (f : A → option B) (l : list A) :
  Forall (λ a, f a = None) l → omap f l = [].
Proof. induction 1 as [|a l Ha Hl IH]; simpl; [done|]. by rewrite Ha. Qed.

(** X10. The ranking that [show_best_device] prints starts with the device
    that [find_best_device_for_carrier] returns, with its score; it is
    empty exactly when no device is returned. *)
Theorem ranking_starts_with_best (h : list LogEntry) (carrier : string)
    (all_carriers : gmap string (gmap string (gset Z))) :
  head (PerplexityApp.best_device_ranking h carrier)
  = (e ← PerplexityApp.find_best_device_for_carrier h carrier all_carriers;
     r ← results e !! carrier;
     Some (model e, calculate_compatibility_score r)).
Proof.
  unfold PerplexityApp.find_best_device_for_carrier,
    PerplexityApp.best_device_ranking.
  pose proof (fold_best_so_far carrier h) as Hinv. unfold best_so_far in Hinv.
  set (f := λ entry : LogEntry,
              carrier_results ← results entry !! carrier;
              Some (model entry, calculate_compatibility_score carrier_results)).
  destruct (fold_left _ h (-1, None)) as [bs [e|]]; simpl in *.
  - destruct Hinv as (h1 & h2 & (-> & sx & Hsx & H1 & H2) & _).
    unfold carrier_score in Hsx.
    destruct (results e !! carrier) as [r|] eqn:Hr; [|done].
    simpl in Hsx. injection Hsx as <-. simpl.
    assert (first_greatest (λ y : str * Z, Some y.2) (omap f (h1 ++ e :: h2))
              (omap f h1) (model e, calculate_compatibility_score r)
              (omap f h2)) as Hfirst.
    { split.
      - rewrite omap_app. simpl. unfold f at 2. by rewrite Hr.
      - eexists. split; [done|]. simpl. split.
        + apply Forall_forall. intros [m s] (e' & Hin & Hf)%list_elem_of_omap.
          intros sy [= <-]. unfold f in Hf.
          destruct (results e' !! carrier) as [r'|] eqn:Hr'; [|done].
          simpl in Hf. injection Hf as <- <-. rewrite Forall_forall in H1.
          apply (H1 e' Hin). unfold carrier_score. by rewrite Hr'.
        + apply Forall_forall. intros [m s] (e' & Hin & Hf)%list_elem_of_omap.
          intros sy [= <-]. unfold f in Hf.
          destruct (results e' !! carrier) as [r'|] eqn:Hr'; [|done].
          simpl in Hf. injection Hf as <- <-. rewrite Forall_forall in H2.
          apply (H2 e' Hin). unfold carrier_score. by rewrite Hr'. }
    pose proof (head_sort_by_score (omap f (h1 ++ e :: h2))) as Hhead.
    destruct (sort_by_score (omap f (h1 ++ e :: h2))) as [|x l] eqn:Hsort;
      simpl in *.
    + destruct Hfirst as [Heq _]. rewrite Hhead in Heq.
      by destruct (omap f h1).
    + destruct Hhead as (l1 & l2 & Hx).
      replace (f e) with (Some (model e, calculate_compatibility_score r))
        by (unfold f; by rewrite Hr).
      f_equal. by eapply first_greatest_unique.
  - destruct Hinv as [_ Hnone]. rewrite omap_none; [done|].
    eapply Forall_impl; [exact Hnone|]. simpl. intros e. unfold carrier_score, f.
    by destruct (results e !! carrier).
Qed.

(** X11. The ranking has at most five lines, in the order of falling
    scores; each line gives the model and the score of an entry of the
    history that has results for the carrier, and when at most five entries
    have such results, each of them has its line. *)
Theorem ranking_sorted_from_history (h : list LogEntry) (carrier : string) :
  (length (PerplexityApp.best_device_ranking h carrier) ≤ 5)%nat
  ∧ StronglySorted (λ a b : str * Z, b.2 ≤ a.2)
      (PerplexityApp.best_device_ranking h carrier)
  ∧ (∀ m s, (m, s) ∈ PerplexityApp.best_device_ranking h carrier →
       ∃ e r, e ∈ h ∧ results e !! carrier = Some r
              ∧ m = model e ∧ s = calculate_compatibility_score r)
  ∧ ((length (filter (λ e, is_Some (results e !! carrier)) h) ≤ 5)%nat →
     ∀ e r, e ∈ h → results e !! carrier = Some r →
       (model e, calculate_compatibility_score r)
       ∈ PerplexityApp.best_device_ranking h carrier).
Proof.
  unfold PerplexityApp.best_device_ranking.
  set (f := λ entry : LogEntry,
              carrier_results ← results entry !! carrier;
              Some (model entry, calculate_compatibility_score carrier_results)).
  assert (∀ m s, (m, s) ∈ omap f h ↔
                 ∃ e r, e ∈ h ∧ results e !! carrier = Some r
                        ∧ m = model e ∧ s = calculate_compatibility_score r) as Hmem.
  { intros m s. rewrite list_elem_of_omap. split.
    - intros (e & Hin & Hf). unfold f in Hf.
      destruct (results e !! carrier) as [r|] eqn:Hr; [|done].
      simpl in Hf. injection Hf as <- <-. exists e, r. by repeat split.
    - intros (e & r & Hin & Hr & -> & ->). exists e. split; [done|].
      unfold f. by rewrite Hr. }
  split; [|split; [|split]].
  - rewrite length_take. lia.
  - pose proof (sort_by_score_sorted (omap f h)) as Hsorted.
    rewrite <- (take_drop 5 (sort_by_score (omap f h))) in Hsorted.
    by apply StronglySorted_app_1_l in Hsorted.
  - intros m s Hin. apply Hmem.
    rewrite <- (sort_by_score_perm (omap f h)).
    apply elem_of_take in Hin as (i & Hi & _).
    by eapply list_elem_of_lookup_2.
  - intros Hlen e r Hin Hr.
    assert (length (omap f h) = length (filter (λ e, is_Some (results e !! carrier)) h))
      as Hcount.
    { clear. induction h as [|e h IH]; [done|].
      change (omap f (e :: h))
        with (match f e with Some y => y :: omap f h | None => omap f h end).
      unfold f at 1. destruct (results e !! carrier) as [r|] eqn:Hr; simpl.
      - rewrite filter_cons_True by (rewrite Hr; eauto). simpl. by rewrite IH.
      - by rewrite filter_cons_False by (rewrite Hr; by intros [? ?]). }
    rewrite take_ge.
    + rewrite sort_by_score_perm. apply Hmem. exists e, r. by repeat split.
    + rewrite sort_by_score_perm. lia.
Qed.

(** ** The analysis and the history *)

Lemma effective_model_nonempty model_input : effective_model model_input ≠ [].
Proof. unfold effective_model. by destruct (strip _). Qed.

Lemma set_of_empty (l : list Z) : set_of l = ∅ ↔ l = [].
Proof.
  split; [|by intros ->]. destruct l as [|x l]; [done|]. intros H.
  assert (x ∈ set_of (x :: l)) as Hx by (apply elem_of_list_to_set; by left).
  rewrite H in Hx. by apply not_elem_of_empty in Hx.
Qed.

Lemma compare_us_carriers (lte nr : gset Z) :
  compare_phone_to_carrier lte nr get_us_carriers
  = Ok (report_of lte nr <$> us_carriers).
Proof. apply compare_profiles. Qed.

Lemma same_phone_key phone_model lte_list nr_list entry :
  same_phone phone_model lte_list nr_list entry = true
  ↔ phone_key entry = (phone_model, lte_list, nr_list).
Proof.
  unfold same_phone, phone_key.
  rewrite !andb_true_iff, !bool_decide_eq_true. split.
  - by intros [[-> ->] ->].
  - intros [= -> -> ->]. done.
Qed.

Section analysis.
Variable parse : string → result (list Z * list Z).
Hypothesis parse_total : ∀ text, ∃ lte nr, parse text = Ok (lte, nr).

(** The analysis never raises; it leaves the history as it is and shows
    something other than a new entry, or it appends one new entry. *)
Lemma analyze_bands_with_cases h input_text model_input now :
  (∃ out, analyze_bands_with parse h input_text model_input now = Ok (h, out)
          ∧ (∀ e, out ≠ Logged e)
          ∧ ∀ now', analyze_bands_with parse h input_text model_input now'
                    = Ok (h, out))
  ∨ (∃ e, analyze_bands_with parse h input_text model_input now
          = Ok (h ++ [e], Logged e)
          ∧ new_entry parse h input_text model_input now e).
Proof.
  unfold analyze_bands_with. cbv zeta.
  change (match strip (list_ascii_of_string model_input) with
          | [] => list_ascii_of_string "Unknown Model"
          | _ => strip (list_ascii_of_string model_input)
          end) with (effective_model model_input).
  destruct (strip (list_ascii_of_string input_text)) as [|c txt] eqn:Htxt.
  { left. exists InputError. by repeat split. }
  destruct (parse_total (string_of_list_ascii (c :: txt))) as (lte & nr & Hparse).
  rewrite Hparse. simpl.
  destruct (existsb _ h) eqn:Hdup.
  { left. rewrite compare_us_carriers. simpl. eexists. by repeat split. }
  destruct (bool_decide (set_of lte = ∅) && bool_decide (set_of nr = ∅)) eqn:Hnone.
  { left. exists NoBandsFound. by repeat split. }
  right. rewrite compare_us_carriers.
  exists {| model := effective_model model_input;
            timestamp := now;
            phone_lte := lte;
            phone_5g := nr;
            results := report_of (set_of lte) (set_of nr) <$> us_carriers |}.
  split; [done|]. unfold new_entry. simpl.
  split; [done|]. split; [apply effective_model_nonempty|]. split; [done|].
  split; [by rewrite Htxt|]. split; [|split; [|split]].
  - apply andb_false_iff in Hnone as [Hl|Hn].
    + left. apply bool_decide_eq_false in Hl. by rewrite <- set_of_empty.
    + right. apply bool_decide_eq_false in Hn. by rewrite <- set_of_empty.
  - apply Forall_forall. intros e' Hin Hkey.
    assert (existsb (same_phone (effective_model model_input) lte nr) h = true)
      as Htrue.
    { apply existsb_exists. exists e'. split; [by apply list_elem_of_In|].
      by apply same_phone_key. }
    congruence.
  - apply compare_us_carriers.
  - by rewrite dom_fmap_L.
Qed.

(** Once an analysis has run, the same texts change the history no more. *)
Lemma analyze_bands_with_again h input_text model_input now now' :
  ∃ h' out out',
    analyze_bands_with parse h input_text model_input now = Ok (h', out)
    ∧ analyze_bands_with parse h' input_text model_input now' = Ok (h', out').
Proof.
  destruct (analyze_bands_with_cases h input_text model_input now)
    as [(out & Hrun & _ & Hany)|(e & Hrun & He)].
  - exists h, out, out. by rewrite Hrun, Hany.
  - destruct He as (Hm & _ & _ & Hparse & _ & _ & _ & _).
    exists (h ++ [e]), (Logged e). rewrite Hrun.
    unfold analyze_bands_with in *. cbv zeta in *.
    change (match strip (list_ascii_of_string model_input) with
            | [] => list_ascii_of_string "Unknown Model"
            | _ => strip (list_ascii_of_string model_input)
            end) with (effective_model model_input) in *.
    destruct (strip (list_ascii_of_string input_text)) as [|c txt] eqn:Htxt;
      [done|].
    rewrite Hparse. simpl.
    assert (existsb (same_phone (effective_model model_input)
                       (phone_lte e) (phone_5g e)) (h ++ [e]) = true) as ->.
    { apply existsb_exists. exists e. split.
      - apply in_or_app. right. by left.
      - apply same_phone_key. unfold phone_key. by rewrite Hm. }
    rewrite compare_us_carriers. simpl. eauto.
Qed.
End analysis.

Lemma perplexity_parse_total text :
  ∃ lte nr, Perplexity.parse_phone_bands text = Ok (lte, nr).
Proof. destruct (perplexity_parse_bands text) as (lte & nr & -> & _). eauto. Qed.

Lemma gui_expanded_parse_total text :
  ∃ lte nr, GuiExpanded.parse_phone_bands text = Ok (lte, nr).
Proof. destruct (gui_expanded_parse_bands text) as (lte & nr & -> & _). eauto. Qed.

(** X12. [analyze_bands] never raises.  It leaves the history as it was, or
    it appends exactly one entry: the entry carries the time of the call and
    a model name that is not empty, its two band lists are what the scanner
    finds in the stripped text and are not both empty, no entry of the
    history has the same model and band lists, and its results are the
    comparison of its bands with the carrier table, one report for each of
    the three carriers. *)
Theorem analyze_bands_appends_new_phone (h : list LogEntry)
    (input_text model_input : string) (now : Z) :
  (∃ h' out,
     PerplexityApp.analyze_bands h input_text model_input now = Ok (h', out)
     ∧ (h' = h
        ∨ ∃ e, h' = h ++ [e] ∧ out = Logged e
               ∧ new_entry Perplexity.parse_phone_bands h input_text model_input
                   now e))
  ∧ (∃ h' out,
       GuiExpandedApp.analyze_bands h input_text model_input now = Ok (h', out)
       ∧ (h' = h
          ∨ ∃ e, h' = h ++ [e] ∧ out = Logged e
                 ∧ new_entry GuiExpanded.parse_phone_bands h input_text
                     model_input now e)).
Proof.
  split.
  - destruct (analyze_bands_with_cases _ perplexity_parse_total
                h input_text model_input now) as [(out & Hrun & _)|(e & Hrun & He)].
    + exists h, out. split; [done|]. by left.
    + exists (h ++ [e]), (Logged e). split; [done|]. right. by exists e.
  - destruct (analyze_bands_with_cases _ gui_expanded_parse_total
                h input_text model_input now) as [(out & Hrun & _)|(e & Hrun & He)].
    + exists h, out. split; [done|]. by left.
    + exists (h ++ [e]), (Logged e). split; [done|]. right. by exists e.
Qed.

(** X13. [analyze_bands] keeps the history free of repeated phones: when
    no two entries of the history have the same model and the same two band
    lists, this also holds of the history after the call. *)
Theorem analyze_bands_keeps_phones_distinct (h : list LogEntry)
    (input_text model_input : string) (now : Z) :
  NoDup (phone_key <$> h) →
  (∃ h' out,
     PerplexityApp.analyze_bands h input_text model_input now = Ok (h', out)
     ∧ NoDup (phone_key <$> h'))
  ∧ (∃ h' out,
       GuiExpandedApp.analyze_bands h input_text model_input now = Ok (h', out)
       ∧ NoDup (phone_key <$> h')).
Proof.
  intros Hnd.
  assert (∀ parse e, new_entry parse h input_text model_input now e →
                     NoDup (phone_key <$> h ++ [e])) as Hnew.
  { intros parse e (_ & _ & _ & _ & _ & Hfresh & _).
    rewrite fmap_app. apply NoDup_app. split; [done|]. split.
    - intros k (e' & -> & Hin)%list_elem_of_fmap Hk. simpl in Hk.
      apply list_elem_of_singleton in Hk.
      rewrite Forall_forall in Hfresh. by apply (Hfresh e' Hin).
    - simpl. apply NoDup_singleton. }
  split.
  - destruct (analyze_bands_with_cases _ perplexity_parse_total
                h input_text model_input now) as [(out & Hrun & _)|(e & Hrun & He)].
    + by exists h, out.
    + exists (h ++ [e]), (Logged e). split; [done|]. by eapply Hnew.
  - destruct (analyze_bands_with_cases _ gui_expanded_parse_total
                h input_text model_input now) as [(out & Hrun & _)|(e & Hrun & He)].
    + by exists h, out.
    + exists (h ++ [e]), (Logged e). split; [done|]. by eapply Hnew.
Qed.

Lemma analyze_bands_keeps_phones_distinct_sample :
  (∃ h' out,
     PerplexityApp.analyze_bands sample_history "4G: B2, B4" "Phone A" 400
     = Ok (h', out)
     ∧ NoDup (phone_key <$> h'))
  ∧ (∃ h' out,
       GuiExpandedApp.analyze_bands sample_history "4G: B2, B4" "Phone A" 400
       = Ok (h', out)
       ∧ NoDup (phone_key <$> h')).
Proof.
  apply (analyze_bands_keeps_phones_distinct sample_history "4G: B2, B4"
           "Phone A" 400).
  apply (bool_decide_unpack _). vm_compute. exact I.
Defined.

(** X14. Analysing the same texts twice files them once: after a call of
    [analyze_bands], a second call with the same input text and model, at
    any time, leaves the history as the first call left it. *)
Theorem analyze_bands_twice (h : list LogEntry)
    (input_text model_input : string) (now now' : Z) :
  (∃ h' out out',
     PerplexityApp.analyze_bands h input_text model_input now = Ok (h', out)
     ∧ PerplexityApp.analyze_bands h' input_text model_input now' = Ok (h', out'))
  ∧ (∃ h' out out',
       GuiExpandedApp.analyze_bands h input_text model_input now = Ok (h', out)
       ∧ GuiExpandedApp.analyze_bands h' input_text model_input now'
         = Ok (h', out')).
Proof.
  split.
  - apply (analyze_bands_with_again _ perplexity_parse_total).
  - apply (analyze_bands_with_again _ gui_expanded_parse_total).
Qed.

(** X15. After [analyze_bands] has filed an entry, the history holds a
    best device for each carrier of the table:
    [find_best_device_for_carrier] returns an entry for it. *)
Theorem analysis_gives_best_device (h h' : list LogEntry)
    (input_text model_input : string) (now : Z) (e : LogEntry)
    (carrier : string) (all_carriers : gmap string (gmap string (gset Z))) :
  PerplexityApp.analyze_bands h input_text model_input now = Ok (h', Logged e) →
  carrier ∈ dom us_carriers →
  is_Some (PerplexityApp.find_best_device_for_carrier h' carrier all_carriers).
Proof.
  intros Hrun Hcarrier.
  destruct (analyze_bands_with_cases _ perplexity_parse_total
              h input_text model_input now) as [(out & Hrun' & Hout & _)|(e' & Hrun' & He)].
  - unfold PerplexityApp.analyze_bands in Hrun. rewrite Hrun' in Hrun.
    injection Hrun as _ ->. by destruct (Hout e).
  - unfold PerplexityApp.analyze_bands in Hrun. rewrite Hrun' in Hrun.
    injection Hrun as <- <-.
    destruct He as (_ & _ & _ & _ & _ & _ & _ & Hdom).
    rewrite <- Hdom in Hcarrier. apply elem_of_dom in Hcarrier.
    apply (best_device_found _ _ _ e'); [|done].
    apply elem_of_app. right. left.
Qed.

Lemma analysis_gives_best_device_sample :
  is_Some (PerplexityApp.find_best_device_for_carrier
             (sample_history ++ [sample_entry "Phone D" 400 [2; 4] [77]])
             "T-Mobile" get_us_carriers).
Proof.
  apply (analysis_gives_best_device sample_history _ "4G: B2, B4 5G: n77"
           "Phone D" 400 (sample_entry "Phone D" 400 [2; 4] [77])
           "T-Mobile" get_us_carriers).
  - vm_compute. reflexivity.
  - apply (bool_decide_unpack _). vm_compute. exact I.
Defined.

(** ** Core bands *)

(** X16. For a carrier of the table the report lists no missing core LTE
    band exactly when the device has every core LTE band of the carrier
    that is one of the carrier's LTE bands. *)
Theorem no_missing_core_iff (lte nr : gset Z)
    (carriers : gmap string CarrierProfile) (name : string) (c : CarrierProfile) :
  carriers !! name = Some c →
  ∃ results r,
    compare_phone_to_carrier lte nr (bands_info_of <$> carriers) = Ok results
    ∧ results !! name = Some r
    ∧ (missing_core_lte r = [] ↔ coreLteBands c ∩ lteBands c ⊆ lte).
Proof.
  intros Hc. exists (report_of lte nr <$> carriers), (report_of lte nr c).
  split; [apply compare_profiles|]. split; [by rewrite lookup_fmap, Hc|].
  simpl. split.
  - intros Hnil x [Hcore Hlte]%elem_of_intersection.
    destruct (decide (x ∈ lte)) as [|Hx]; [done|].
    assert (x ∈ sorted (coreLteBands c ∩ (lteBands c ∖ lte))) as Hin.
    { apply elem_of_sorted, elem_of_intersection. split; [done|].
      by apply elem_of_difference. }
    rewrite Hnil in Hin. by apply elem_of_nil in Hin.
  - intros Hsub. apply sorted_eq_nil, set_eq. intros x.
    rewrite elem_of_intersection, elem_of_difference, elem_of_empty.
    split; [|done]. intros (Hcore & Hlte & Hx). apply Hx, Hsub.
    by apply elem_of_intersection.
Qed.

Lemma no_missing_core_iff_verizon :
  ∃ results r,
    compare_phone_to_carrier (set_of [2; 4; 13; 66]) (set_of [])
      (bands_info_of <$> us_carriers) = Ok results
    ∧ results !! "Verizon" = Some r
    ∧ (missing_core_lte r = []
       ↔ coreLteBands verizon ∩ lteBands verizon ⊆ set_of [2; 4; 13; 66]).
Proof.
  apply (no_missing_core_iff (set_of [2; 4; 13; 66]) (set_of []) us_carriers
           "Verizon" verizon).
  vm_compute. reflexivity.
Defined.

(** ** Letter case *)

Section mapped_text.
Variable f : ascii → ascii.
Hypothesis f_word : ∀ c, is_word (f c) = is_word c.

Lemma at_boundary_map st : at_boundary (map_state f st) = at_boundary st.
Proof.
  unfold at_boundary, word_before, word_after. simpl.
  destruct (prev st) as [p|], (rest st) as [|c s]; simpl; by rewrite ?f_word.
Qed.

Lemma consumed_map st st' :
  consumed (map_state f st) (map_state f st') = map f (consumed st st').
Proof. unfold consumed. simpl. by rewrite !length_map, <- fmap_take. Qed.

Lemma set_grp_map w st :
  set_grp (map f w) (map_state f st) = map_state f (set_grp w st).
Proof. done. Qed.

Section results.
Context {A B : Type} (g : A → B).

Lemma star_iter_map (body : ∀ C, (mstate → option C) → mstate → option C) n :
  commutes f g body →
  ∀ (k : mstate → option A) (k' : mstate → option B) st,
    (∀ st', k' (map_state f st') = g <$> k st') →
    star_iter (body B) k' n (map_state f st) = g <$> star_iter (body A) k n st.
Proof.
  intros Hbody k k' st Hk. revert st.
  induction n as [|n IH]; intros st; simpl; [apply Hk|].
  rewrite (Hbody (λ st', if (length (rest st') <? length (rest st))%nat
                         then star_iter (body A) k n st' else None)).
  - destruct (body A _ st); simpl; [done|apply Hk].
  - intros st'. simpl. rewrite !length_map.
    destruct (_ <? _)%nat; [apply IH|done].
Qed.
End results.

Lemma rmatch_map r :
  respects f r → ∀ A B (g : A → B), commutes f g (λ C, @rmatch C r).
Proof.
  induction r as [|p| |r1 IH1 r2 IH2|r1 IH1 r2 IH2|r1 IH1|r1 IH1];
    simpl; intros Hr A B g k k' st Hk; simpl.
  - apply Hk.
  - destruct (rest st) as [|c s] eqn:Hs; simpl; [done|]. rewrite Hr.
    destruct (p c); [|done].
    by rewrite <- (Hk (MState (Some c) s (grp st))).
  - rewrite at_boundary_map. destruct (at_boundary st); [apply Hk|done].
  - destruct Hr as [Hr1 Hr2]. apply (IH1 Hr1 A B g). intros st'.
    by apply (IH2 Hr2 A B g).
  - destruct Hr as [Hr1 Hr2].
    rewrite (IH1 Hr1 A B g k k' st Hk), (IH2 Hr2 A B g k k' st Hk).
    by destruct (rmatch r1 k st).
  - rewrite length_map.
    by apply (star_iter_map g (λ C, @rmatch C r1) (length (rest st)) (IH1 Hr A B g)).
  - apply (IH1 Hr A B g). intros st'.
    by rewrite consumed_map, set_grp_map, Hk.
Qed.

Lemma match_at_map r st :
  respects f r → match_at r (map_state f st) = map_state f <$> match_at r st.
Proof.
  intros Hr. unfold match_at.
  by apply (rmatch_map r Hr mstate mstate (map_state f) Some Some
              (MState (prev st) (rest st) None)).
Qed.

Lemma search_from_map r p s :
  respects f r →
  search_from r (f <$> p) (map f s)
  = prod_map (map_state f) (map_state f) <$> search_from r p s.
Proof.
  intros Hr. revert p. induction s as [|c s IH]; intros p; simpl.
  - change (MState (f <$> p) [] None) with (map_state f (MState p [] None)).
    rewrite (match_at_map r (MState p [] None) Hr).
    by destruct (match_at r (MState p [] None)).
  - change (MState (f <$> p) (f c :: map f s) None)
      with (map_state f (MState p (c :: s) None)).
    rewrite (match_at_map r (MState p (c :: s) None) Hr).
    destruct (match_at r (MState p (c :: s) None)); [done|]. apply (IH (Some c)).
Qed.

Lemma finditer_map fuel r st :
  respects f r →
  finditer fuel r (map_state f st)
  = prod_map (map_state f) (map_state f) <$> finditer fuel r st.
Proof.
  intros Hr. revert st. induction fuel as [|fuel IH]; intros st; simpl; [done|].
  rewrite (search_from_map r (prev st) (rest st) Hr).
  destruct (search_from r (prev st) (rest st)) as [[st0 st1]|]; simpl; [|done].
  f_equal. rewrite !length_map. destruct (_ <? _)%nat; [apply IH|].
  unfold step. simpl. destruct (rest st1) as [|c s]; simpl; [done|].
  apply (IH (MState (Some c) s None)).
Qed.

Lemma matches_map r s :
  respects f r →
  matches r (map f s) = prod_map (map_state f) (map_state f) <$> matches r s.
Proof.
  intros Hr. unfold matches. rewrite length_map.
  apply (finditer_map _ r (MState None s None) Hr).
Qed.

Lemma findall_map r s :
  respects f r → findall r (map f s) = map f <$> findall r s.
Proof.
  intros Hr. unfold findall. rewrite (matches_map r s Hr).
  rewrite <- !list_fmap_compose. apply list_fmap_ext. intros _ [st0 st1] _. simpl.
  destruct (ngroups r =? 0)%nat; [apply consumed_map|].
  by destruct (grp st1).
Qed.

Lemma re_search_map r s : respects f r → re_search r (map f s) = re_search r s.
Proof.
  intros Hr. unfold re_search.
  pose proof (search_from_map r None s Hr) as Hs. simpl in Hs. rewrite Hs.
  by destruct (search_from r None s).
Qed.

Lemma re_sub_empty_map r s :
  respects f r → re_sub_empty r (map f s) = map f (re_sub_empty r s).
Proof.
  intros Hr. unfold re_sub_empty. rewrite (matches_map r s Hr).
  generalize (matches r s). intros ms. revert s.
  induction ms as [|[st0 st1] ms IH]; intros s; simpl; [done|].
  rewrite !length_map, map_app, <- fmap_take. f_equal. apply IH.
Qed.

Hypothesis f_space : ∀ c, is_space (f c) = is_space c.

Lemma lstrip_map s : lstrip (map f s) = map f (lstrip s).
Proof.
  induction s as [|c s IH]; simpl; [done|]. rewrite f_space.
  by destruct (is_space c).
Qed.

Lemma strip_map s : strip (map f s) = map f (strip s).
Proof.
  unfold strip, rstrip.
  by rewrite lstrip_map, <- map_rev, lstrip_map, map_rev.
Qed.

Lemma split_on_map sep s :
  (∀ c, Ascii.eqb (f c) sep = Ascii.eqb c sep) →
  split_on sep (map f s) = map f <$> split_on sep s.
Proof.
  intros Hsep. induction s as [|c s IH]; simpl; [done|]. rewrite Hsep.
  destruct (Ascii.eqb c sep); simpl; [by rewrite IH|]. rewrite IH.
  by destruct (split_on sep s).
Qed.
End mapped_text.

Lemma py_lower_word c : is_word (py_lower c) = is_word c.
Proof. by_cases_on_char c. Qed.

Lemma py_lower_space c : is_space (py_lower c) = is_space c.
Proof. by_cases_on_char c. Qed.

Lemma py_lower_newline c : Ascii.eqb (py_lower c) "010" = Ascii.eqb c "010".
Proof. by_cases_on_char c. Qed.

Lemma py_lower_idem c : py_lower (py_lower c) = py_lower c.
Proof. by_cases_on_char c. Qed.

Lemma py_lower_decimal c : is_decimal (py_lower c) = is_decimal c.
Proof. by_cases_on_char c. Qed.

Lemma py_lower_decimal_fixed c : is_decimal c = true → py_lower c = c.
Proof. by_cases_on_char c. Qed.

Lemma py_lower_code (n : N) c :
  n = 43%N ∨ n = 45%N ∨ n = 95%N → is_code n (py_lower c) = is_code n c.
Proof. intros [->|[->| ->]]; by_cases_on_char c. Qed.

Lemma lower_idem s : lower (lower s) = lower s.
Proof.
  unfold lower. rewrite map_map. apply map_ext. intros c. apply py_lower_idem.
Qed.

Lemma digits_from_lower s : ∀ acc, digits_from acc (lower s) = digits_from acc s.
Proof.
  induction s as [s IH] using (induction_ltof1 _ (@length ascii)).
  unfold ltof in IH. intros acc. destruct s as [|c s]; simpl; [done|].
  rewrite py_lower_decimal. destruct (is_decimal c) eqn:Hc.
  - rewrite (py_lower_decimal_fixed c Hc). apply IH. simpl. lia.
  - rewrite (py_lower_code 95) by auto. destruct (is_code 95 c); [|done].
    destruct s as [|d s]; simpl; [done|].
    rewrite py_lower_decimal. destruct (is_decimal d) eqn:Hd; [|done].
    rewrite (py_lower_decimal_fixed d Hd). apply IH. simpl. lia.
Qed.

Lemma digits_lower s : digits (lower s) = digits s.
Proof.
  destruct s as [|c s]; simpl; [done|]. rewrite py_lower_decimal.
  destruct (is_decimal c) eqn:Hc; [|done].
  rewrite (py_lower_decimal_fixed c Hc). apply digits_from_lower.
Qed.

Lemma strip_lower s : strip (lower s) = lower (strip s).
Proof. apply (strip_map py_lower py_lower_space). Qed.

Lemma py_lower_int_space c : is_int_space (py_lower c) = is_int_space c.
Proof. by_cases_on_char c. Qed.

Lemma int_lstrip_lower s : int_lstrip (lower s) = lower (int_lstrip s).
Proof.
  induction s as [|c s IH]; [done|].
  change (lower (c :: s)) with (py_lower c :: lower s).
  cbn [int_lstrip]. rewrite py_lower_int_space.
  by destruct (is_int_space c).
Qed.

Lemma lower_rev s : lower (rev s) = rev (lower s).
Proof. apply map_rev. Qed.

Lemma int_strip_lower s : int_strip (lower s) = lower (int_strip s).
Proof.
  unfold int_strip.
  by rewrite int_lstrip_lower, <- lower_rev, int_lstrip_lower, lower_rev.
Qed.

Lemma digit_count_lower s : digit_count (lower s) = digit_count s.
Proof.
  induction s as [|c s IH]; [done|].
  change (lower (c :: s)) with (py_lower c :: lower s).
  cbn [digit_count]. by rewrite py_lower_decimal, IH.
Qed.

(** [int] does not look at the case of letters. *)
Lemma py_int_lower s : py_int (lower s) = py_int s.
Proof.
  unfold py_int. rewrite int_strip_lower.
  destruct (int_strip s) as [|c s']; [done|].
  change (lower (c :: s')) with (py_lower c :: lower s').
  cbv beta iota zeta.
  rewrite (py_lower_code 45), (py_lower_code 43) by auto.
  destruct (is_code 45 c);
    [by rewrite (digits_lower s'), (digit_count_lower s')|].
  destruct (is_code 43 c);
    [by rewrite (digits_lower s'), (digit_count_lower s')|].
  change (py_lower c :: lower s') with (lower (c :: s')).
  by rewrite (digits_lower (c :: s')), (digit_count_lower (c :: s')).
Qed.

Lemma for_each_fmap {A B S : Type} (f : A → B) (body : S → B → result S)
    (body' : S → A → result S) (l : list A) s :
  (∀ s a, body s (f a) = body' s a) →
  for_each (f <$> l) body s = for_each l body' s.
Proof.
  intros Hbody. revert s. induction l as [|a l IH]; intros s; simpl; [done|].
  rewrite Hbody. destruct (body' s a); simpl; [apply IH|done].
Qed.

Ltac respects_lower :=
  simpl; repeat split; let c := fresh "c" in intros c; by_cases_on_char c.

Lemma re_lte_keyword_lower : respects py_lower re_lte_keyword.
Proof. respects_lower. Qed.

Lemma re_b_digits_lower : respects py_lower re_b_digits.
Proof. respects_lower. Qed.

Lemma re_parenthesized_lower : respects py_lower re_parenthesized.
Proof. respects_lower. Qed.

Lemma re_lte_part_lower : respects py_lower re_lte_part.
Proof. respects_lower. Qed.

Lemma re_nr_chain_lower : respects py_lower re_nr_chain.
Proof. respects_lower. Qed.

Lemma re_digits_lower : respects py_lower re_digits.
Proof. respects_lower. Qed.

Lemma re_nr_single_lower : respects py_lower re_nr_single.
Proof. respects_lower. Qed.

Lemma re_n_digits_lower : respects py_lower Terminal.re_n_digits.
Proof. respects_lower. Qed.

Lemma re_b_annotated_lower : respects py_lower Terminal.re_b_annotated.
Proof. respects_lower. Qed.

Lemma add_lte_band_lower s part : add_lte_band s (lower part) = add_lte_band s part.
Proof. unfold add_lte_band. by rewrite py_int_lower. Qed.

Lemma add_nr_band_lower s band_str :
  add_nr_band s (lower band_str) = add_nr_band s band_str.
Proof. unfold add_nr_band. by rewrite py_int_lower. Qed.

Lemma scan_lte_line_lower s line :
  scan_lte_line s (lower line) = scan_lte_line s line.
Proof.
  unfold scan_lte_line, lower. rewrite (strip_map py_lower py_lower_space).
  rewrite !(re_search_map py_lower py_lower_word) by
    (apply re_lte_keyword_lower || apply re_b_digits_lower).
  destruct (_ || _); [|done].
  rewrite (re_sub_empty_map py_lower py_lower_word) by apply re_parenthesized_lower.
  rewrite (findall_map py_lower py_lower_word) by apply re_lte_part_lower.
  apply for_each_fmap, add_lte_band_lower.
Qed.

Lemma scan_lte_lower text : scan_lte (lower text) = scan_lte text.
Proof.
  unfold scan_lte, lower. rewrite (split_on_map py_lower _ _ py_lower_newline).
  apply for_each_fmap, scan_lte_line_lower.
Qed.

Lemma terminal_scan_line_lower st line :
  Terminal.scan_line st (lower line) = Terminal.scan_line st line.
Proof.
  unfold Terminal.scan_line.
  assert (lower (strip (lower line)) = lower (strip line)) as ->.
  { unfold lower at 2. rewrite (strip_map py_lower py_lower_space).
    apply lower_idem. }
  destruct (_ && _); [done|]. destruct (_ && _); [done|].
  destruct (Terminal.current_section st) as [[]|]; [| |done].
  - unfold lower.
    rewrite (findall_map py_lower py_lower_word) by apply re_n_digits_lower.
    by rewrite (for_each_fmap _ _ Terminal.add_band _ _ add_nr_band_lower).
  - unfold lower.
    rewrite (findall_map py_lower py_lower_word) by apply re_b_annotated_lower.
    by rewrite (for_each_fmap _ _ Terminal.add_band _ _ add_nr_band_lower).
Qed.

Lemma list_ascii_of_lower_text text :
  list_ascii_of_string (lower_text text) = lower (list_ascii_of_string text).
Proof. unfold lower_text. apply list_ascii_of_string_of_list_ascii. Qed.

(** X17. On a text whose characters all lie below U+0100 the scanners do
    not look at the case of letters: each of the three returns on the text
    in lower case what it returns on the text.  (Texts are lists of 8-bit
    codes here, so the theorem says nothing of other texts; the property
    does not extend to them.) *)
Theorem scanners_ignore_case (text : string) :
  Perplexity.parse_phone_bands (lower_text text) = Perplexity.parse_phone_bands text
  ∧ GuiExpanded.parse_phone_bands (lower_text text)
    = GuiExpanded.parse_phone_bands text
  ∧ Terminal.parse_phone_bands (lower_text text) = Terminal.parse_phone_bands text.
Proof.
  repeat split.
  - unfold Perplexity.parse_phone_bands. rewrite list_ascii_of_lower_text.
    rewrite scan_lte_lower. unfold lower.
    rewrite (findall_map py_lower py_lower_word) by apply re_nr_chain_lower.
    rewrite (for_each_fmap (map py_lower) _
               (λ nr_bands match_group,
                  for_each (findall re_digits match_group) add_nr_band nr_bands));
      [done|].
    intros s match_group.
    rewrite (findall_map py_lower py_lower_word) by apply re_digits_lower.
    apply for_each_fmap, add_nr_band_lower.
  - unfold GuiExpanded.parse_phone_bands. rewrite list_ascii_of_lower_text.
    rewrite scan_lte_lower. unfold lower.
    rewrite (findall_map py_lower py_lower_word) by apply re_nr_single_lower.
    by rewrite (for_each_fmap _ _ add_nr_band _ _ add_nr_band_lower).
  - unfold Terminal.parse_phone_bands. rewrite list_ascii_of_lower_text.
    unfold lower. rewrite (split_on_map py_lower _ _ py_lower_newline).
    by rewrite (for_each_fmap _ _ Terminal.scan_line _ _ terminal_scan_line_lower).
Qed.


(** ** Deleting entries of the history *)

Section filter_facts.
Context {A : Type} (P : A → Prop) `{!∀ x, Decision (P x)}.

Lemma filter_all (l : list A) : Forall P l → filter P l = l.
Proof.
  induction 1 as [|x l Hx Hl IH]; [done|].
  by rewrite filter_cons_True, IH.
Qed.

Lemma filter_none (l : list A) : Forall (λ x, ¬ P x) l → filter P l = [].
Proof.
  induction 1 as [|x l Hx Hl IH]; [done|].
  by rewrite filter_cons_False.
Qed.

End filter_facts.

Lemma remove_first_filter (x : LogEntry) (l : list LogEntry) :
  NoDup l → remove_first x l = filter (λ e, e ≠ x) l.
Proof.
  induction 1 as [|y l Hy Hl IH]; simpl; [done|].
  destruct (decide (x = y)) as [->|Hxy].
  - rewrite filter_cons_False by (intros ?; done).
    symmetry. apply filter_all. 
    apply Forall_forall. intros e He ->. done.
  - rewrite filter_cons_True by congruence. by rewrite IH.
Qed.

Lemma delete_turn (data : LogEntry) (history : list LogEntry) :
  NoDup history →
  (if bool_decide (data ∈ history) then remove_first data history else history)
  = filter (λ e, e ≠ data) history.
Proof.
  intros Hnd. case_bool_decide as Hin.
  - by apply remove_first_filter.
  - symmetry. apply filter_all.
    apply Forall_forall. intros e He ->. done.
Qed.

Lemma delete_fold (selected history : list LogEntry) :
  NoDup history →
  fold_left (λ history data,
               if bool_decide (data ∈ history)
               then remove_first data history
               else history) selected history
  = filter (λ e, e ∉ selected) history.
Proof.
  revert history. induction selected as [|d selected IH]; intros history Hnd; simpl.
  - symmetry. apply filter_all, Forall_forall. intros e _. apply not_elem_of_nil.
  - rewrite delete_turn by done.
    rewrite IH by (by apply NoDup_filter).
    rewrite list_filter_filter. apply list_filter_iff.
    intros e. rewrite not_elem_of_cons. tauto.
Qed.

(** X18.  In a history without repeated entries, deleting the selected
    entries after the user confirms leaves exactly the entries that were
    not selected, in their order; without confirmation the history stays
    as it was. *)
Theorem delete_keeps_unselected (history selected : list LogEntry) (confirmed : bool) :
  NoDup history →
  PerplexityApp.delete_selected_entries history selected confirmed
  = if confirmed then filter (λ e, e ∉ selected) history else history.
Proof.
  intros Hnd. unfold PerplexityApp.delete_selected_entries.
  destruct selected as [|d selected].
  - destruct confirmed; [|done].
    symmetry. apply filter_all, Forall_forall. intros e _. apply not_elem_of_nil.
  - destruct confirmed; [|done]. by apply delete_fold.
Qed.


Lemma sample_history_nodup : NoDup sample_history.
Proof.
  apply (NoDup_fmap_1 phone_key).
  apply (bool_decide_unpack _). vm_compute. exact I.
Qed.

Lemma delete_keeps_unselected_sample :
  PerplexityApp.delete_selected_entries sample_history
    [sample_phone_b; sample_phone_b] true
  = filter (λ e, e ∉ [sample_phone_b; sample_phone_b]) sample_history.
Proof.
  apply (delete_keeps_unselected sample_history [sample_phone_b; sample_phone_b] true).
  apply sample_history_nodup.
Defined.

(** ** The metrics of the multi-phone comparison *)

Lemma add_carrier_fold (items : list (string * CarrierReport)) acc :
  (∀ x, x ∈ (fold_left GuiExpandedApp.add_carrier items acc).1.1
        ↔ x ∈ acc.1.1 ∨ ∃ item, item ∈ items ∧ x ∈ supported_lte item.2)
  ∧ (∀ x, x ∈ (fold_left GuiExpandedApp.add_carrier items acc).1.2
          ↔ x ∈ acc.1.2 ∨ ∃ item, item ∈ items ∧ x ∈ supported_nr item.2)
  ∧ acc.2 ≤ (fold_left GuiExpandedApp.add_carrier items acc).2
  ∧ ((fold_left GuiExpandedApp.add_carrier items acc).2 = acc.2
     ↔ Forall (λ item, missing_core_lte item.2 = []) items).
Proof.
  revert acc. induction items as [|item items IH]; intros acc; simpl.
  - repeat split; try lia; try (intros; by left); try constructor.
    + intros [?|(? & []%elem_of_nil & _)]; done.
    + intros [?|(? & []%elem_of_nil & _)]; done.
  - destruct (IH (GuiExpandedApp.add_carrier acc item)) as (H1 & H2 & H3 & H4).
    change ((GuiExpandedApp.add_carrier acc item).1.1)
      with (acc.1.1 ∪ set_of (supported_lte item.2)) in H1.
    change ((GuiExpandedApp.add_carrier acc item).1.2)
      with (acc.1.2 ∪ set_of (supported_nr item.2)) in H2.
    change ((GuiExpandedApp.add_carrier acc item).2)
      with (acc.2 + Z.of_nat (length (missing_core_lte item.2))) in H3, H4.
    repeat split.
    + rewrite H1, elem_of_union. unfold set_of. rewrite elem_of_list_to_set.
      intros [[?|?]|(i & Hi & Hx)]; [by left| |].
      * right. exists item. split; [left|done].
      * right. exists i. split; [by right|done].
    + rewrite H1, elem_of_union. unfold set_of. rewrite elem_of_list_to_set.
      intros [?|(i & [->|Hi]%elem_of_cons & Hx)]; [by left; left|by left; right|].
      right. by exists i.
    + rewrite H2, elem_of_union. unfold set_of. rewrite elem_of_list_to_set.
      intros [[?|?]|(i & Hi & Hx)]; [by left| |].
      * right. exists item. split; [left|done].
      * right. exists i. split; [by right|done].
    + rewrite H2, elem_of_union. unfold set_of. rewrite elem_of_list_to_set.
      intros [?|(i & [->|Hi]%elem_of_cons & Hx)]; [by left; left|by left; right|].
      right. by exists i.
    + lia.
    + intros Heq. constructor.
      * destruct (missing_core_lte item.2); [done|]. simpl length in *. lia.
      * apply H4. lia.
    + intros [Hi Hitems]%Forall_cons. apply H4 in Hitems.
      rewrite Hitems, Hi. simpl. lia.
Qed.

(** X19.  The overall lists of a phone in the multi-phone comparison are
    strictly increasing and hold exactly the bands that the results of the
    phone list as supported for some carrier; the overall counts are the
    lengths of these lists; and the total of critical missing bands is
    zero exactly when no carrier's result lists a missing core band. *)
Theorem overall_metrics_of_results (e : LogEntry) :
  StronglySorted Z.lt (GuiExpandedApp.overall_supported_lte (GuiExpandedApp.phone_metrics e))
  ∧ (∀ x, x ∈ GuiExpandedApp.overall_supported_lte (GuiExpandedApp.phone_metrics e)
          ↔ ∃ c r, results e !! c = Some r ∧ x ∈ supported_lte r)
  ∧ GuiExpandedApp.overall_supported_lte_count (GuiExpandedApp.phone_metrics e)
    = Z.of_nat (length (GuiExpandedApp.overall_supported_lte (GuiExpandedApp.phone_metrics e)))
  ∧ StronglySorted Z.lt (GuiExpandedApp.overall_supported_nr (GuiExpandedApp.phone_metrics e))
  ∧ (∀ x, x ∈ GuiExpandedApp.overall_supported_nr (GuiExpandedApp.phone_metrics e)
          ↔ ∃ c r, results e !! c = Some r ∧ x ∈ supported_nr r)
  ∧ GuiExpandedApp.overall_supported_nr_count (GuiExpandedApp.phone_metrics e)
    = Z.of_nat (length (GuiExpandedApp.overall_supported_nr (GuiExpandedApp.phone_metrics e)))
  ∧ (GuiExpandedApp.total_critical_missing_lte_bands (GuiExpandedApp.phone_metrics e) = 0
     ↔ ∀ c r, results e !! c = Some r → missing_core_lte r = []).
Proof.
  unfold GuiExpandedApp.phone_metrics. cbv zeta. simpl.
  destruct (add_carrier_fold (map_to_list (results e)) (∅, ∅, 0))
    as (H1 & H2 & _ & H4). simpl in H1, H2, H4.
  repeat split.
  - apply sorted_strictly.
  - rewrite elem_of_sorted, H1.
    intros [[]%not_elem_of_empty|([c r] & Hi%elem_of_map_to_list & Hx)]. eauto.
  - rewrite elem_of_sorted, H1. intros (c & r & Hr & Hx).
    right. exists (c, r). by rewrite elem_of_map_to_list.
  - by rewrite length_sorted.
  - apply sorted_strictly.
  - rewrite elem_of_sorted, H2.
    intros [[]%not_elem_of_empty|([c r] & Hi%elem_of_map_to_list & Hx)]. eauto.
  - rewrite elem_of_sorted, H2. intros (c & r & Hr & Hx).
    right. exists (c, r). by rewrite elem_of_map_to_list.
  - by rewrite length_sorted.
  - intros Hz c r Hr. apply H4 in Hz. rewrite Forall_forall in Hz.
    apply (Hz (c, r)). by apply elem_of_map_to_list.
  - intros Hall. apply H4, Forall_forall. intros [c r] Hi%elem_of_map_to_list.
    by eapply Hall.
Qed.


(** ** The best performers of the multi-phone comparison *)

Lemma join_models_snoc (names : list str) (name : str) :
  names ≠ [] →
  join_models (names ++ [name])
  = join_models names ++ list_ascii_of_string ", " ++ name.
Proof.
  induction names as [|n names IH]; [done|]. intros _.
  destruct names as [|n' names]; [done|].
  change (join_models ((n :: n' :: names) ++ [name]))
    with (n ++ list_ascii_of_string ", " ++ join_models ((n' :: names) ++ [name])).
  rewrite IH by done.
  change (join_models (n :: n' :: names))
    with (n ++ list_ascii_of_string ", " ++ join_models (n' :: names)).
  by rewrite <- !app_assoc.
Qed.

Lemma join_models_truthy (names : list str) :
  names ≠ [] → Forall (λ n, n ≠ []) names →
  GuiExpandedApp.truthy (Some (join_models names)) = true.
Proof.
  intros Hne Hall. destruct names as [|n names]; [done|].
  apply Forall_cons in Hall as [Hn _].
  destruct n as [|c n]; [done|]. by destruct names.
Qed.

Section best_loops.
Variable key : GuiExpandedApp.PhoneMetrics → Z.
Implicit Types (m : GuiExpandedApp.PhoneMetrics) (ms : list GuiExpandedApp.PhoneMetrics).

Lemma models_with_snoc v ms m :
  models_with key v (ms ++ [m])
  = models_with key v ms
    ++ (if decide (key m = v) then [GuiExpandedApp.metrics_model m] else []).
Proof.
  unfold models_with. rewrite filter_app, fmap_app. f_equal.
  destruct (decide (key m = v)).
  - by rewrite filter_cons_True.
  - by rewrite filter_cons_False.
Qed.

Lemma models_with_none v ms :
  Forall (λ m, key m ≠ v) ms → models_with key v ms = [].
Proof. intros H. unfold models_with. by rewrite filter_none. Qed.

Lemma models_with_some v ms :
  (∃ m, m ∈ ms ∧ key m = v) → models_with key v ms ≠ [].
Proof.
  intros (m & Hm & Hk) Hnil. unfold models_with in Hnil.
  apply fmap_nil_inv in Hnil.
  assert (m ∈ filter (λ m, key m = v) ms) as Hin by (by apply list_elem_of_filter).
  rewrite Hnil in Hin. by apply elem_of_nil in Hin.
Qed.

Lemma models_with_named v ms :
  Forall (λ m, GuiExpandedApp.metrics_model m ≠ []) ms →
  Forall (λ n, n ≠ []) (models_with key v ms).
Proof.
  intros Hall. unfold models_with. apply Forall_fmap, Forall_forall.
  intros m [_ Hm]%list_elem_of_filter.
  rewrite Forall_forall in Hall. by apply Hall.
Qed.

Lemma max_turn_fold ms :
  Forall (λ m, 0 ≤ key m) ms →
  Forall (λ m, GuiExpandedApp.metrics_model m ≠ []) ms →
  ms ≠ [] →
  greatest_of key (fold_left (max_turn key) ms (None, -1)).2 ms
  ∧ (fold_left (max_turn key) ms (None, -1)).1
    = Some (join_models
              (models_with key (fold_left (max_turn key) ms (None, -1)).2 ms)).
Proof.
  induction ms as [|m ms IH] using rev_ind; [done|].
  intros [Hpos Hm0]%Forall_app [Hnamed Hmn]%Forall_app _.
  apply Forall_inv in Hm0, Hmn.
  rewrite fold_left_app. simpl.
  destruct (decide (ms = [])) as [->|Hne].
  - simpl. unfold max_turn. simpl.
    destruct (-1 <? key m) eqn:Hlt; [|apply Z.ltb_ge in Hlt; lia].
    simpl. split.
    + split; [exists m; split; [left|done]|].
      repeat constructor. lia.
    + unfold models_with. by rewrite filter_cons_True.
  - destruct IH as [[Hex Hle] Hbest]; [done..|].
    set (st := fold_left (max_turn key) ms (None, -1)) in *.
    unfold max_turn.
    destruct (st.2 <? key m) eqn:Hlt.
    + apply Z.ltb_lt in Hlt. simpl. split.
      * split; [exists m; split; [apply elem_of_app; right; left|done]|].
        apply Forall_app. split; [|repeat constructor; lia].
        eapply Forall_impl; [exact Hle|]. simpl. intros; lia.
      * rewrite models_with_snoc, decide_True by done.
        rewrite models_with_none; [done|].
        eapply Forall_impl; [exact Hle|]. simpl. intros; lia.
    + apply Z.ltb_ge in Hlt.
      destruct (key m =? st.2) eqn:Heq.
      * apply Z.eqb_eq in Heq. rewrite Hbest.
        rewrite join_models_truthy
          by (by apply models_with_some || by apply models_with_named).
        simpl. split.
        -- split.
           ++ destruct Hex as (m' & ? & ?). exists m'.
              split; [apply elem_of_app; by left|done].
           ++ apply Forall_app. split; [done|repeat constructor; lia].
        -- rewrite models_with_snoc, decide_True by done.
           by rewrite join_models_snoc by (by apply models_with_some).
      * apply Z.eqb_neq in Heq. simpl. split.
        -- split.
           ++ destruct Hex as (m' & ? & ?). exists m'.
              split; [apply elem_of_app; by left|done].
           ++ apply Forall_app. split; [done|repeat constructor; lia].
        -- rewrite models_with_snoc, decide_False by done.
           by rewrite app_nil_r.
Qed.

Lemma min_turn_fold ms :
  Forall (λ m, GuiExpandedApp.metrics_model m ≠ []) ms →
  ms ≠ [] →
  ∃ v, (fold_left (min_turn key) ms (None, None)).2 = Some v
       ∧ least_of key v ms
       ∧ (fold_left (min_turn key) ms (None, None)).1
         = Some (join_models (models_with key v ms)).
Proof.
  induction ms as [|m ms IH] using rev_ind; [done|].
  intros [Hnamed Hmn]%Forall_app _.
  apply Forall_inv in Hmn.
  rewrite fold_left_app. simpl.
  destruct (decide (ms = [])) as [->|Hne].
  - simpl. unfold min_turn. simpl. exists (key m). split; [done|]. split.
    + split; [exists m; split; [left|done]|].
      repeat constructor. lia.
    + unfold models_with. by rewrite filter_cons_True.
  - destruct IH as (v & Hv & [Hex Hle] & Hbest); [done..|].
    set (st := fold_left (min_turn key) ms (None, None)) in *.
    unfold min_turn. rewrite Hv.
    destruct (key m <? v) eqn:Hlt.
    + apply Z.ltb_lt in Hlt. exists (key m). simpl. split; [done|]. split.
      * split; [exists m; split; [apply elem_of_app; right; left|done]|].
        apply Forall_app. split; [|repeat constructor; lia].
        eapply Forall_impl; [exact Hle|]. simpl. intros; lia.
      * rewrite models_with_snoc, decide_True by done.
        rewrite models_with_none; [done|].
        eapply Forall_impl; [exact Hle|]. simpl. intros; lia.
    + apply Z.ltb_ge in Hlt. exists v.
      destruct (key m =? v) eqn:Heq.
      * apply Z.eqb_eq in Heq. rewrite Hbest.
        rewrite join_models_truthy
          by (by apply models_with_some || by apply models_with_named).
        simpl. split; [done|]. split.
        -- split.
           ++ destruct Hex as (m' & ? & ?). exists m'.
              split; [apply elem_of_app; by left|done].
           ++ apply Forall_app. split; [done|repeat constructor; lia].
        -- rewrite models_with_snoc, decide_True by done.
           by rewrite join_models_snoc by (by apply models_with_some).
      * apply Z.eqb_neq in Heq. simpl. split; [done|]. split.
        -- split.
           ++ destruct Hex as (m' & ? & ?). exists m'.
              split; [apply elem_of_app; by left|done].
           ++ apply Forall_app. split; [done|repeat constructor; lia].
        -- rewrite models_with_snoc, decide_False by done.
           by rewrite app_nil_r.
Qed.

End best_loops.

Lemma pick_best_lte b m :
  (GuiExpandedApp.best_lte_phone (GuiExpandedApp.pick_best b m),
   GuiExpandedApp.max_lte_bands (GuiExpandedApp.pick_best b m))
  = max_turn GuiExpandedApp.overall_supported_lte_count
      (GuiExpandedApp.best_lte_phone b, GuiExpandedApp.max_lte_bands b) m.
Proof.
  unfold GuiExpandedApp.pick_best, max_turn. cbv zeta. simpl.
  repeat case_match; simplify_eq; done.
Qed.

Lemma pick_best_nr b m :
  (GuiExpandedApp.best_nr_phone (GuiExpandedApp.pick_best b m),
   GuiExpandedApp.max_nr_bands (GuiExpandedApp.pick_best b m))
  = max_turn GuiExpandedApp.overall_supported_nr_count
      (GuiExpandedApp.best_nr_phone b, GuiExpandedApp.max_nr_bands b) m.
Proof.
  unfold GuiExpandedApp.pick_best, max_turn. cbv zeta. simpl.
  repeat case_match; simplify_eq; done.
Qed.

Lemma pick_best_core b m :
  (GuiExpandedApp.best_core_lte_phone (GuiExpandedApp.pick_best b m),
   GuiExpandedApp.min_critical_bands (GuiExpandedApp.pick_best b m))
  = min_turn GuiExpandedApp.total_critical_missing_lte_bands
      (GuiExpandedApp.best_core_lte_phone b, GuiExpandedApp.min_critical_bands b) m.
Proof.
  unfold GuiExpandedApp.pick_best, min_turn. cbv zeta. simpl.
  repeat case_match; simplify_eq; done.
Qed.

Lemma fold_pick_best ms b :
  (GuiExpandedApp.best_lte_phone (fold_left GuiExpandedApp.pick_best ms b),
   GuiExpandedApp.max_lte_bands (fold_left GuiExpandedApp.pick_best ms b))
  = fold_left (max_turn GuiExpandedApp.overall_supported_lte_count) ms
      (GuiExpandedApp.best_lte_phone b, GuiExpandedApp.max_lte_bands b)
  ∧ (GuiExpandedApp.best_nr_phone (fold_left GuiExpandedApp.pick_best ms b),
     GuiExpandedApp.max_nr_bands (fold_left GuiExpandedApp.pick_best ms b))
    = fold_left (max_turn GuiExpandedApp.overall_supported_nr_count) ms
        (GuiExpandedApp.best_nr_phone b, GuiExpandedApp.max_nr_bands b)
  ∧ (GuiExpandedApp.best_core_lte_phone (fold_left GuiExpandedApp.pick_best ms b),
     GuiExpandedApp.min_critical_bands (fold_left GuiExpandedApp.pick_best ms b))
    = fold_left (min_turn GuiExpandedApp.total_critical_missing_lte_bands) ms
        (GuiExpandedApp.best_core_lte_phone b, GuiExpandedApp.min_critical_bands b).
Proof.
  revert b. induction ms as [|m ms IH]; intros b; simpl; [done|].
  destruct (IH (GuiExpandedApp.pick_best b m)) as (-> & -> & ->).
  by rewrite pick_best_lte, pick_best_nr, pick_best_core.
Qed.

(** X20.  Among at least one selected phone with non-empty model names,
    the comparison names as best for LTE the phones whose count of overall
    supported LTE bands is the greatest, for 5G those with the greatest
    count of overall supported 5G bands, and for core coverage those with
    the least total of critical missing bands: each time all the tied
    phones, in the order of the selection, joined by a comma and a space. *)
Theorem best_performers_are_the_tied (phones : list LogEntry) :
  phones ≠ [] →
  Forall (λ e, model e ≠ []) phones →
  greatest_of GuiExpandedApp.overall_supported_lte_count
    (GuiExpandedApp.max_lte_bands (GuiExpandedApp.best_performers phones))
    (GuiExpandedApp.phone_metrics <$> phones)
  ∧ GuiExpandedApp.best_lte_phone (GuiExpandedApp.best_performers phones)
    = Some (join_models
              (models_with GuiExpandedApp.overall_supported_lte_count
                 (GuiExpandedApp.max_lte_bands (GuiExpandedApp.best_performers phones))
                 (GuiExpandedApp.phone_metrics <$> phones)))
  ∧ greatest_of GuiExpandedApp.overall_supported_nr_count
      (GuiExpandedApp.max_nr_bands (GuiExpandedApp.best_performers phones))
      (GuiExpandedApp.phone_metrics <$> phones)
  ∧ GuiExpandedApp.best_nr_phone (GuiExpandedApp.best_performers phones)
    = Some (join_models
              (models_with GuiExpandedApp.overall_supported_nr_count
                 (GuiExpandedApp.max_nr_bands (GuiExpandedApp.best_performers phones))
                 (GuiExpandedApp.phone_metrics <$> phones)))
  ∧ ∃ v,
      GuiExpandedApp.min_critical_bands (GuiExpandedApp.best_performers phones) = Some v
      ∧ least_of GuiExpandedApp.total_critical_missing_lte_bands v
          (GuiExpandedApp.phone_metrics <$> phones)
      ∧ GuiExpandedApp.best_core_lte_phone (GuiExpandedApp.best_performers phones)
        = Some (join_models
                  (models_with GuiExpandedApp.total_critical_missing_lte_bands v
                     (GuiExpandedApp.phone_metrics <$> phones))).
Proof.
  intros Hne Hnamed. unfold GuiExpandedApp.best_performers. cbv zeta.
  set (ms := GuiExpandedApp.phone_metrics <$> phones).
  assert (ms ≠ []) as Hms by (by destruct phones).
  assert (Forall (λ m, GuiExpandedApp.metrics_model m ≠ []) ms) as Hmodels.
  { apply Forall_fmap. eapply Forall_impl; [exact Hnamed|]. done. }
  assert (Forall (λ m, 0 ≤ GuiExpandedApp.overall_supported_lte_count m) ms) as Hlte.
  { apply Forall_fmap, Forall_forall. intros e _. simpl. lia. }
  assert (Forall (λ m, 0 ≤ GuiExpandedApp.overall_supported_nr_count m) ms) as Hnr.
  { apply Forall_fmap, Forall_forall. intros e _. simpl. lia. }
  match goal with
  | |- context [fold_left GuiExpandedApp.pick_best ms ?b] =>
      destruct (fold_pick_best ms b) as (H1 & H2 & H3)
  end.
  simpl in H1, H2, H3.
  destruct (max_turn_fold _ ms Hlte Hmodels Hms) as [G1 B1].
  destruct (max_turn_fold _ ms Hnr Hmodels Hms) as [G2 B2].
  destruct (min_turn_fold GuiExpandedApp.total_critical_missing_lte_bands ms Hmodels Hms)
    as (v & V3 & G3 & B3).
  rewrite <- H1 in G1, B1. rewrite <- H2 in G2, B2. rewrite <- H3 in V3, B3.
  simpl in G1, B1, G2, B2, V3, B3.
  repeat split; try done.
  - by destruct G1.
  - by destruct G1.
  - by destruct G2.
  - by destruct G2.
  - exists v. by repeat split; try apply G3.
Qed.

Lemma best_performers_are_the_tied_sample :
  greatest_of GuiExpandedApp.overall_supported_lte_count
    (GuiExpandedApp.max_lte_bands (GuiExpandedApp.best_performers sample_history))
    (GuiExpandedApp.phone_metrics <$> sample_history)
  ∧ GuiExpandedApp.best_lte_phone (GuiExpandedApp.best_performers sample_history)
    = Some (join_models
              (models_with GuiExpandedApp.overall_supported_lte_count
                 (GuiExpandedApp.max_lte_bands (GuiExpandedApp.best_performers sample_history))
                 (GuiExpandedApp.phone_metrics <$> sample_history)))
  ∧ greatest_of GuiExpandedApp.overall_supported_nr_count
      (GuiExpandedApp.max_nr_bands (GuiExpandedApp.best_performers sample_history))
      (GuiExpandedApp.phone_metrics <$> sample_history)
  ∧ GuiExpandedApp.best_nr_phone (GuiExpandedApp.best_performers sample_history)
    = Some (join_models
              (models_with GuiExpandedApp.overall_supported_nr_count
                 (GuiExpandedApp.max_nr_bands (GuiExpandedApp.best_performers sample_history))
                 (GuiExpandedApp.phone_metrics <$> sample_history)))
  ∧ ∃ v,
      GuiExpandedApp.min_critical_bands (GuiExpandedApp.best_performers sample_history)
      = Some v
      ∧ least_of GuiExpandedApp.total_critical_missing_lte_bands v
          (GuiExpandedApp.phone_metrics <$> sample_history)
      ∧ GuiExpandedApp.best_core_lte_phone (GuiExpandedApp.best_performers sample_history)
        = Some (join_models
                  (models_with GuiExpandedApp.total_critical_missing_lte_bands v
                     (GuiExpandedApp.phone_metrics <$> sample_history))).
Proof.
  apply (best_performers_are_the_tied sample_history).
  - discriminate.
  - repeat constructor; discriminate.
Defined.


(** ** The metrics of an analysed phone *)

Lemma missing_core_nil (lte : gset Z) (c : CarrierProfile) :
  sorted (coreLteBands c ∩ (lteBands c ∖ lte)) = []
  ↔ coreLteBands c ∩ lteBands c ⊆ lte.
Proof.
  split.
  - intros Hnil x [Hcore Hlte]%elem_of_intersection.
    destruct (decide (x ∈ lte)) as [|Hx]; [done|].
    assert (x ∈ sorted (coreLteBands c ∩ (lteBands c ∖ lte))) as Hin.
    { apply elem_of_sorted, elem_of_intersection. split; [done|].
      by apply elem_of_difference. }
    rewrite Hnil in Hin. by apply elem_of_nil in Hin.
  - intros Hsub. apply sorted_eq_nil, set_eq. intros x.
    rewrite elem_of_intersection, elem_of_difference, elem_of_empty.
    split; [|done]. intros (Hcore & Hlte & Hx). apply Hx, Hsub.
    by apply elem_of_intersection.
Qed.

Lemma analysed_items (lte nr : gset Z) (carriers : gmap string CarrierProfile)
    (Q : CarrierReport → Prop) :
  (∃ item, item ∈ map_to_list (report_of lte nr <$> carriers) ∧ Q item.2)
  ↔ ∃ c p, carriers !! c = Some p ∧ Q (report_of lte nr p).
Proof.
  split.
  - intros ([c r] & Hi%elem_of_map_to_list & HQ).
    apply lookup_fmap_Some in Hi as (p & <- & Hp). eauto.
  - intros (c & p & Hp & HQ). exists (c, report_of lte nr p).
    split; [|done]. apply elem_of_map_to_list.
    by rewrite lookup_fmap, Hp.
Qed.

(** X21.  For a phone whose results come from comparing its own band lists
    with a carrier table, the overall supported LTE bands of the
    multi-phone comparison are exactly the detected LTE bands that some
    carrier of the table uses, and likewise for 5G; so neither overall
    count exceeds the count of detected bands.  The total of critical
    missing bands is zero exactly when the phone has every core LTE band
    that each carrier lists among its LTE bands. *)
Theorem analysed_phone_overall (e : LogEntry) (carriers : gmap string CarrierProfile) :
  compare_phone_to_carrier (set_of (phone_lte e)) (set_of (phone_5g e))
    (bands_info_of <$> carriers) = Ok (results e) →
  (∀ x, x ∈ GuiExpandedApp.overall_supported_lte (GuiExpandedApp.phone_metrics e)
        ↔ x ∈ phone_lte e ∧ ∃ c p, carriers !! c = Some p ∧ x ∈ lteBands p)
  ∧ (∀ x, x ∈ GuiExpandedApp.overall_supported_nr (GuiExpandedApp.phone_metrics e)
          ↔ x ∈ phone_5g e ∧ ∃ c p, carriers !! c = Some p ∧ x ∈ nrBands p)
  ∧ GuiExpandedApp.overall_supported_lte_count (GuiExpandedApp.phone_metrics e)
    ≤ GuiExpandedApp.detected_lte_count (GuiExpandedApp.phone_metrics e)
  ∧ GuiExpandedApp.overall_supported_nr_count (GuiExpandedApp.phone_metrics e)
    ≤ GuiExpandedApp.detected_nr_count (GuiExpandedApp.phone_metrics e)
  ∧ (GuiExpandedApp.total_critical_missing_lte_bands (GuiExpandedApp.phone_metrics e) = 0
     ↔ ∀ c p, carriers !! c = Some p →
              coreLteBands p ∩ lteBands p ⊆ set_of (phone_lte e)).
Proof.
  intros Hcmp. rewrite compare_profiles in Hcmp. injection Hcmp as Hres.
  unfold GuiExpandedApp.phone_metrics. cbv zeta. simpl.
  destruct (add_carrier_fold (map_to_list (results e)) (∅, ∅, 0))
    as (H1 & H2 & _ & H4). simpl in H1, H2, H4.
  rewrite <- Hres in H1, H2, H4 |- *.
  set (overall := fold_left _ _ _) in *.
  assert (∀ x, x ∈ overall.1.1
               ↔ x ∈ phone_lte e ∧ ∃ c p, carriers !! c = Some p ∧ x ∈ lteBands p)
    as Hlte.
  { intros x. rewrite H1, (analysed_items _ _ _ (λ r, x ∈ supported_lte r)).
    simpl. split.
    - intros [[]%not_elem_of_empty|(c & p & Hp & Hx)].
      apply elem_of_sorted, elem_of_intersection in Hx as [Hx ?].
      apply elem_of_list_to_set in Hx. eauto.
    - intros (Hx & c & p & Hp & Hb). right. exists c, p. split; [done|].
      apply elem_of_sorted, elem_of_intersection. split; [|done].
      by apply elem_of_list_to_set. }
  assert (∀ x, x ∈ overall.1.2
               ↔ x ∈ phone_5g e ∧ ∃ c p, carriers !! c = Some p ∧ x ∈ nrBands p)
    as Hnr.
  { intros x. rewrite H2, (analysed_items _ _ _ (λ r, x ∈ supported_nr r)).
    simpl. split.
    - intros [[]%not_elem_of_empty|(c & p & Hp & Hx)].
      apply elem_of_sorted, elem_of_intersection in Hx as [Hx ?].
      apply elem_of_list_to_set in Hx. eauto.
    - intros (Hx & c & p & Hp & Hb). right. exists c, p. split; [done|].
      apply elem_of_sorted, elem_of_intersection. split; [|done].
      by apply elem_of_list_to_set. }
  split; [|split; [|split; [|split]]].
  - intros x. by rewrite elem_of_sorted.
  - intros x. by rewrite elem_of_sorted.
  - apply inj_le, subseteq_size. intros x [Hx _]%Hlte.
    by apply elem_of_list_to_set.
  - apply inj_le, subseteq_size. intros x [Hx _]%Hnr.
    by apply elem_of_list_to_set.
  - rewrite H4. split.
    + intros Hall c p Hp. apply missing_core_nil.
      rewrite Forall_forall in Hall.
      apply (Hall (c, report_of (set_of (phone_lte e)) (set_of (phone_5g e)) p)).
      apply elem_of_map_to_list. by rewrite lookup_fmap, Hp.
    + intros Hall. apply Forall_forall.
      intros [c r] Hi%elem_of_map_to_list.
      apply lookup_fmap_Some in Hi as (p & <- & Hp). simpl.
      apply missing_core_nil. by eapply Hall.
Qed.

Lemma analysed_phone_overall_sample :
  (∀ x, x ∈ GuiExpandedApp.overall_supported_lte
              (GuiExpandedApp.phone_metrics sample_phone_b)
        ↔ x ∈ phone_lte sample_phone_b
          ∧ ∃ c p, us_carriers !! c = Some p ∧ x ∈ lteBands p)
  ∧ (∀ x, x ∈ GuiExpandedApp.overall_supported_nr
                (GuiExpandedApp.phone_metrics sample_phone_b)
          ↔ x ∈ phone_5g sample_phone_b
            ∧ ∃ c p, us_carriers !! c = Some p ∧ x ∈ nrBands p)
  ∧ GuiExpandedApp.overall_supported_lte_count
      (GuiExpandedApp.phone_metrics sample_phone_b)
    ≤ GuiExpandedApp.detected_lte_count (GuiExpandedApp.phone_metrics sample_phone_b)
  ∧ GuiExpandedApp.overall_supported_nr_count
      (GuiExpandedApp.phone_metrics sample_phone_b)
    ≤ GuiExpandedApp.detected_nr_count (GuiExpandedApp.phone_metrics sample_phone_b)
  ∧ (GuiExpandedApp.total_critical_missing_lte_bands
       (GuiExpandedApp.phone_metrics sample_phone_b) = 0
     ↔ ∀ c p, us_carriers !! c = Some p →
              coreLteBands p ∩ lteBands p ⊆ set_of (phone_lte sample_phone_b)).
Proof.
  apply (analysed_phone_overall sample_phone_b us_carriers).
  vm_compute. reflexivity.
Defined.
